(** * QwertyPiano: the synthesiser core of [src/QwertyPiano.tsx]

    A shallow embedding of the key-to-pitch mapping, the voice manager
    ([startNote], [stopNote], [allNotesOff]), the recorder ([pushRecord],
    [startRecording]) and the polling player ([playRecording]) of the
    component, followed by the properties of the specification.

    Conventions of the embedding.
    - JavaScript numbers that hold frequencies and gains are real numbers
      ([R]), the ideal values without the rounding of doubles; the
      properties of the voice manager only move these values around. MIDI
      numbers, octaves and semitone offsets are integers ([Z]).
    - Readings of [performance.now()] are integers (milliseconds); every
      call of the clock is an explicit argument of the function that makes
      it, so two calls in one function body are two arguments.
    - [Voice] objects live in a store ([voices], a list indexed by
      allocation order); the [Map] [activeVoices] holds indices into it, as
      the source's map holds references.
    - React state is read and written synchronously. *)

From Stdlib Require Import Reals Lra.
From stdpp Require Import gmap strings list fin_maps sorting pretty.

Local Open Scope Z_scope.

(** ** Strings: [String.prototype.toUpperCase] on ASCII

    Strings are sequences of 8-bit characters; [a]..[z] are mapped to
    [A]..[Z] and every other character is left as it is. On strings of
    ASCII characters ([ascii_key]) this is what [toUpperCase] does in
    JavaScript. Outside ASCII it is not: JavaScript also maps the long s
    (U+017F) to [S], which the function below leaves alone; a property
    that depends on which key a string names is therefore stated for
    ASCII keys. *)

Definition upper_ascii (c : Ascii.ascii) : Ascii.ascii :=
  let n := Ascii.N_of_ascii c in
  if ((97 <=? n)%N && (n <=? 122)%N)%bool then Ascii.ascii_of_N (n - 32) else c.

Fixpoint toUpperCase (s : string) : string :=
  match s with
  | EmptyString => EmptyString
  | String c rest => String (upper_ascii c) (toUpperCase rest)
  end.

(** The strings all of whose characters are ASCII (codes 0 to 127). *)
Fixpoint ascii_key (s : string) : bool :=
  match s with
  | EmptyString => true
  | String c rest => (Ascii.N_of_ascii c <? 128)%N && ascii_key rest
  end.

(** ** Key table and pitch *)

(** [const KEY_TO_OFFSET: Record<string, number>]. The table is only ever
    indexed with upper-cased strings, which name no inherited property of
    a JavaScript object, so a lookup is a lookup among these 18 entries. *)
Definition KEY_TO_OFFSET : gmap string Z :=
  list_to_map
    [("A", 0); ("W", 1); ("S", 2); ("E", 3); ("D", 4); ("F", 5);
     ("T", 6); ("G", 7); ("Y", 8); ("H", 9); ("U", 10); ("J", 11);
     ("K", 12); ("O", 13); ("L", 14); ("P", 15); (";", 16); ("'", 17)]%string.

(** [const midiToFreq = (midi) => 440 * Math.pow(2, (midi - 69) / 12)] *)
Definition midiToFreq (midi : Z) : R :=
  (440 * Rpower 2 ((IZR midi - 69) / 12))%R.

(** [keyToMidi], with the [octave] of the closure as an argument. *)
Definition keyToMidi (octave : Z) (key : string) : option Z :=
  match KEY_TO_OFFSET !! toUpperCase key with
  | None => None
  | Some offset =>
      let baseMidi := 12 * (octave + 1) in
      Some (baseMidi + offset)
  end.

(** ** Voices *)

(** Web Audio's [OscillatorType]. *)
Inductive OscillatorType := sine | square | sawtooth | triangle | custom.

(** One [Voice] object. [freq], the two oscillator types and [peak] (the
    [volume] the attack ramp rises to) are fixed by the constructor;
    [releasing] records that [release] has scheduled the ramp to silence
    and the [stop] timer; [ended] is the field of the class. *)
Record Voice := mkVoice {
  freq : R;
  osc1_type : OscillatorType;
  osc2_type : OscillatorType;
  peak : R;
  releasing : bool;
  ended : bool
}.

(** [new Voice(ctx, destination, freq, waveform, volume)] *)
Definition newVoice (f : R) (waveform : OscillatorType) (volume : R) : Voice :=
  {| freq := f;
     osc1_type := waveform;
     osc2_type := match waveform with sine => triangle | w => w end;
     peak := volume;
     releasing := false;
     ended := false |}.

(** [Voice.release] *)
Definition release (v : Voice) : Voice :=
  if ended v then v
  else {| freq := freq v; osc1_type := osc1_type v; osc2_type := osc2_type v;
          peak := peak v; releasing := true; ended := ended v |}.

(** [Voice.stop] *)
Definition stop (v : Voice) : Voice :=
  if ended v then v
  else {| freq := freq v; osc1_type := osc1_type v; osc2_type := osc2_type v;
          peak := peak v; releasing := releasing v; ended := true |}.

(** ** Recorded events *)

Inductive Transition := down | up.

(** An element of [recording]: [{ key, type, t }] and the [__scheduled]
    property that [playRecording] adds to the object ([None] while the
    property is absent). *)
Record RecordedEvent := mkEvent {
  key : string;
  type : Transition;
  t : Z;
  __scheduled : option bool
}.

(** JavaScript truthiness of [ev.__scheduled]. *)
Definition truthy (f : option bool) : bool :=
  match f with Some true => true | _ => false end.

Definition set_scheduled (b : bool) (ev : RecordedEvent) : RecordedEvent :=
  {| key := key ev; type := type ev; t := t ev; __scheduled := Some b |}.

(** ** Component state *)

Record Piano := mkPiano {
  octave : Z;
  sustain : bool;
  volume : R;
  waveform : OscillatorType;
  armed : bool;
  voices : list Voice;
  activeVoices : gmap string nat;
  downSet : gset string;
  renderTick : nat;
  isRecording : bool;
  recording : list RecordedEvent;
  recordStartRef : option Z
}.

(** The state of a freshly mounted component. *)
Definition initial : Piano :=
  {| octave := 4; sustain := false; volume := (35 / 100)%R; waveform := sine;
     armed := false; voices := []; activeVoices := ∅; downSet := ∅;
     renderTick := 0%nat; isRecording := false; recording := [];
     recordStartRef := None |}.

(** Field updates ([s.f = x] on the record). *)

Definition with_octave (x : Z) (s : Piano) : Piano :=
  mkPiano x (sustain s) (volume s) (waveform s) (armed s) (voices s)
    (activeVoices s) (downSet s) (renderTick s) (isRecording s) (recording s)
    (recordStartRef s).

Definition with_sustain (x : bool) (s : Piano) : Piano :=
  mkPiano (octave s) x (volume s) (waveform s) (armed s) (voices s)
    (activeVoices s) (downSet s) (renderTick s) (isRecording s) (recording s)
    (recordStartRef s).

Definition with_volume (x : R) (s : Piano) : Piano :=
  mkPiano (octave s) (sustain s) x (waveform s) (armed s) (voices s)
    (activeVoices s) (downSet s) (renderTick s) (isRecording s) (recording s)
    (recordStartRef s).

Definition with_waveform (x : OscillatorType) (s : Piano) : Piano :=
  mkPiano (octave s) (sustain s) (volume s) x (armed s) (voices s)
    (activeVoices s) (downSet s) (renderTick s) (isRecording s) (recording s)
    (recordStartRef s).

Definition with_armed (x : bool) (s : Piano) : Piano :=
  mkPiano (octave s) (sustain s) (volume s) (waveform s) x (voices s)
    (activeVoices s) (downSet s) (renderTick s) (isRecording s) (recording s)
    (recordStartRef s).

Definition with_voices (x : list Voice) (s : Piano) : Piano :=
  mkPiano (octave s) (sustain s) (volume s) (waveform s) (armed s) x
    (activeVoices s) (downSet s) (renderTick s) (isRecording s) (recording s)
    (recordStartRef s).

Definition with_activeVoices (x : gmap string nat) (s : Piano) : Piano :=
  mkPiano (octave s) (sustain s) (volume s) (waveform s) (armed s) (voices s)
    x (downSet s) (renderTick s) (isRecording s) (recording s)
    (recordStartRef s).

Definition with_downSet (x : gset string) (s : Piano) : Piano :=
  mkPiano (octave s) (sustain s) (volume s) (waveform s) (armed s) (voices s)
    (activeVoices s) x (renderTick s) (isRecording s) (recording s)
    (recordStartRef s).

Definition with_renderTick (x : nat) (s : Piano) : Piano :=
  mkPiano (octave s) (sustain s) (volume s) (waveform s) (armed s) (voices s)
    (activeVoices s) (downSet s) x (isRecording s) (recording s)
    (recordStartRef s).

Definition with_isRecording (x : bool) (s : Piano) : Piano :=
  mkPiano (octave s) (sustain s) (volume s) (waveform s) (armed s) (voices s)
    (activeVoices s) (downSet s) (renderTick s) x (recording s)
    (recordStartRef s).

Definition with_recording (x : list RecordedEvent) (s : Piano) : Piano :=
  mkPiano (octave s) (sustain s) (volume s) (waveform s) (armed s) (voices s)
    (activeVoices s) (downSet s) (renderTick s) (isRecording s) x
    (recordStartRef s).

Definition with_recordStartRef (x : option Z) (s : Piano) : Piano :=
  mkPiano (octave s) (sustain s) (volume s) (waveform s) (armed s) (voices s)
    (activeVoices s) (downSet s) (renderTick s) (isRecording s) (recording s)
    x.

(** ** Voice manager *)

(** [ensureAudio]: creates the audio context and the master gain on first
    use; [armed] stands for [ctxRef.current] being set, the two are written
    together. *)
Definition ensureAudio (s : Piano) : Piano :=
  if armed s then s else with_armed true s.

(** [highlightKey] and [clearAllHighlights] *)
Definition highlightKey (k : string) (isDown : bool) (s : Piano) : Piano :=
  with_renderTick (S (renderTick s))
    (with_downSet (if isDown then {[k]} ∪ downSet s else downSet s ∖ {[k]}) s).

Definition clearAllHighlights (s : Piano) : Piano :=
  with_renderTick (S (renderTick s)) (with_downSet ∅ s).

(** [startNote] *)
Definition startNote (key : string) (s : Piano) : Piano :=
  let k := toUpperCase key in
  match activeVoices s !! k with
  | Some _ => s (* already sounding *)
  | None =>
      match keyToMidi (octave s) k with
      | None => s
      | Some midi =>
          let s1 := ensureAudio s in
          let f := midiToFreq midi in
          let voice := length (voices s1) in
          let s2 := with_voices (voices s1 ++ [newVoice f (waveform s1) (volume s1)]) s1 in
          let s3 := with_activeVoices (<[k := voice]> (activeVoices s2)) s2 in
          highlightKey k true s3
      end
  end.

(** [stopNote] *)
Definition stopNote (key : string) (s : Piano) : Piano :=
  let k := toUpperCase key in
  match activeVoices s !! k with
  | None => s
  | Some voice =>
      if sustain s then s (* defer stop until sustain released *)
      else
        let s1 := with_voices (alter release voice (voices s)) s in
        let s2 := with_activeVoices (delete k (activeVoices s1)) s1 in
        highlightKey k false s2
  end.

(** [allNotesOff]. The [forEach] visits the map in insertion order; the
    fold below visits it in the order of the keys, which gives the same
    store, [release] on one voice not depending on the others. *)
Definition allNotesOff (s : Piano) : Piano :=
  let s1 :=
    with_voices
      (map_fold (fun _ voice vs => alter release voice vs) (voices s) (activeVoices s)) s in
  let s2 := with_activeVoices ∅ s1 in
  clearAllHighlights s2.

(** The state setters reachable from the controls. *)
Definition setSustain (b : bool) (s : Piano) : Piano := with_sustain b s.
Definition setVolume (v : R) (s : Piano) : Piano := with_volume v s.
Definition setWaveform (w : OscillatorType) (s : Piano) : Piano := with_waveform w s.
Definition setOctave (f : Z -> Z) (s : Piano) : Piano := with_octave (f (octave s)) s.

Definition octaveUp : Piano -> Piano := setOctave (fun o => Z.min 8 (o + 1)).
Definition octaveDown : Piano -> Piano := setOctave (fun o => Z.max 1 (o - 1)).

(** ** Recorder *)

(** [pushRecord]. [now0] is the value of the [performance.now()] call on
    the right of [??] (made only when [recordStartRef.current] is null);
    [now1] is the value of the call in [performance.now() - t0]. *)
Definition pushRecord (key : string) (ty : Transition) (now0 now1 : Z) (s : Piano) : Piano :=
  let '(t0, s1) :=
    match recordStartRef s with
    | Some t0 => (t0, s)
    | None => (now0, with_recordStartRef (Some now0) s)
    end in
  let t := now1 - t0 in
  with_recording (recording s1 ++ [mkEvent (toUpperCase key) ty t None]) s1.

(** [startRecording] and [stopRecording] *)
Definition startRecording (s : Piano) : Piano :=
  with_isRecording true (with_recordStartRef None (with_recording [] s)).

Definition stopRecording (s : Piano) : Piano := with_isRecording false s.

(** ** Keyboard handlers *)

(** [handleDown], on [e.key]; [now0], [now1] are the clock readings of
    the [pushRecord] call it may make. *)
Definition handleDown (ekey : string) (now0 now1 : Z) (s : Piano) : Piano :=
  let k := toUpperCase ekey in
  if decide (k = " ") then setSustain (negb (sustain s)) s
  else
    let s1 := if decide (k = "]") then octaveUp s else s in
    let s2 := if decide (k = "[") then octaveDown s1 else s1 in
    match KEY_TO_OFFSET !! k with
    | None => s2
    | Some _ =>
        let s3 := startNote k s2 in
        if isRecording s3 then pushRecord k down now0 now1 s3 else s3
    end.

(** [handleUp] *)
Definition handleUp (ekey : string) (now0 now1 : Z) (s : Piano) : Piano :=
  let k := toUpperCase ekey in
  match KEY_TO_OFFSET !! k with
  | None => s
  | Some _ =>
      let s1 := if isRecording s then pushRecord k up now0 now1 s else s in
      stopNote k s1
  end.

(** ** Player *)

(** One call made to the voice manager by the player: the event [ev] was
    dispatched by the [sched] run whose [now] was [elapsed]. *)
Record Dispatch := mkDispatch {
  elapsed : Z;
  event : RecordedEvent
}.

(** The first [forEach] of [sched]: [if (!ev.__scheduled) ev.__scheduled = false]. *)
Definition init_flag (ev : RecordedEvent) : RecordedEvent :=
  if truthy (__scheduled ev) then ev else set_scheduled false ev.

(** The guard of the second [forEach]. *)
Definition due (now : Z) (ev : RecordedEvent) : bool :=
  negb (truthy (__scheduled ev)) && (t ev <=? now + 5).

(** The second [forEach] of [sched], over the event objects [evs]: the
    events are returned with their flags as the loop leaves them, next to
    the state after the calls and the calls made. [startNote] and
    [stopNote] read the configuration of the state they are given: no
    control is operated while a playback runs. *)
Fixpoint dispatch (now : Z) (evs : list RecordedEvent) (s : Piano)
  : list RecordedEvent * Piano * list Dispatch :=
  match evs with
  | [] => ([], s, [])
  | ev :: rest =>
      if due now ev then
        let s1 := match type ev with
                  | down => startNote (key ev) s
                  | up => stopNote (key ev) s
                  end in
        let '(rest', s2, calls) := dispatch now rest s1 in
        (set_scheduled true ev :: rest', s2, mkDispatch now ev :: calls)
      else
        let '(rest', s2, calls) := dispatch now rest s in
        (ev :: rest', s2, calls)
  end.

(** One run of [sched], [now] being [performance.now() - start]. *)
Definition sched (now : Z) (s : Piano) : Piano * list Dispatch :=
  let '(evs, s1, calls) := dispatch now (init_flag <$> recording s) s in
  (with_recording evs s1, calls).

(** [(recording as any).some((ev) => !ev.__scheduled)] *)
Definition pending (s : Piano) : bool :=
  existsb (fun ev => negb (truthy (__scheduled ev))) (recording s).

(** The chain of [sched] runs: [frames] are the clock readings of the
    successive runs (the first made synchronously, the others from
    [requestAnimationFrame]); the chain stops re-arming when nothing is
    pending, and is observed up to the last reading of [frames]. *)
Fixpoint sched_loop (start : Z) (frames : list Z) (s : Piano) : Piano * list Dispatch :=
  match frames with
  | [] => (s, [])
  | r :: rest =>
      let '(s1, calls) := sched (r - start) s in
      if pending s1 then
        let '(s2, calls') := sched_loop start rest s1 in (s2, calls ++ calls')
      else (s1, calls)
  end.

(** [playRecording]; [start] is the reading of [const start = performance.now()]. *)
Definition playRecording (start : Z) (frames : list Z) (s : Piano) : Piano * list Dispatch :=
  match recording s with
  | [] => (s, [])
  | _ => sched_loop start frames s
  end.

(** ** Runs of the component *)

(** What can happen to a mounted component: keyboard events, the taps of
    [handleClickKey] (a [startNote], and the [stopNote] of its timer), the
    controls, the transport buttons and the [stop] timer of a released
    voice. [NoteOn], [NoteOff] and the runs of [sched] inside [Play] read
    the configuration of the state they act on. The timer of a tap and a
    re-armed [sched] run the functions of the render that created them,
    with the sustain, octave, waveform and volume of that render: when a
    control was operated in between, such a call is the call below
    between two uses of the setters, which a run can express. *)
Inductive Action :=
  | KeyDown (ekey : string) (now0 now1 : Z)
  | KeyUp (ekey : string) (now0 now1 : Z)
  | NoteOn (k : string)
  | NoteOff (k : string)
  | SetSustain (b : bool)
  | SetVolume (v : R)
  | SetWaveform (w : OscillatorType)
  | OctaveUp
  | OctaveDown
  | EnableAudio
  | StartRecording
  | StopRecording
  | Play (start : Z) (frames : list Z)
  | AllNotesOff
  | StopTimer (voice : nat).

Definition step (a : Action) (s : Piano) : Piano :=
  match a with
  | KeyDown k n0 n1 => handleDown k n0 n1 s
  | KeyUp k n0 n1 => handleUp k n0 n1 s
  | NoteOn k => startNote k s
  | NoteOff k => stopNote k s
  | SetSustain b => setSustain b s
  | SetVolume v => setVolume v s
  | SetWaveform w => setWaveform w s
  | OctaveUp => octaveUp s
  | OctaveDown => octaveDown s
  | EnableAudio => ensureAudio s
  | StartRecording => startRecording s
  | StopRecording => stopRecording s
  | Play start frames => (playRecording start frames s).1
  | AllNotesOff => allNotesOff s
  | StopTimer voice => with_voices (alter stop voice (voices s)) s
  end.

Definition run (acts : list Action) (s : Piano) : Piano :=
  foldl (fun s a => step a s) s acts.

(** ** Vocabulary of the properties *)

(** The parameters the constructor of [Voice] fixes. *)
Definition same_params (v v' : Voice) : Prop :=
  freq v' = freq v /\ osc1_type v' = osc1_type v /\
  osc2_type v' = osc2_type v /\ peak v' = peak v.

(** [vs'] still holds every voice of [vs], with its parameters. *)
Definition keeps_voices (vs vs' : list Voice) : Prop :=
  forall voice v, vs !! voice = Some v ->
    exists v', vs' !! voice = Some v' /\ same_params v v'.

(** The actions that change octave, waveform or volume. *)
Definition is_config (a : Action) : bool :=
  match a with
  | SetVolume _ | SetWaveform _ | OctaveUp | OctaveDown => true
  | _ => false
  end.

(** One captured key transition: the arguments of a [pushRecord] call,
    with the clock readings the call would make. *)
Record Capture := mkCapture {
  ckey : string;
  ctype : Transition;
  cnow0 : Z;
  cnow1 : Z
}.

Definition capture (c : Capture) (s : Piano) : Piano :=
  pushRecord (ckey c) (ctype c) (cnow0 c) (cnow1 c) s.

Definition captureAll (cs : list Capture) (s : Piano) : Piano :=
  foldl (fun s c => capture c s) s cs.

(** The event [pushRecord] appends for [c] when the session began at [t0]. *)
Definition event_of (t0 : Z) (c : Capture) : RecordedEvent :=
  mkEvent (toUpperCase (ckey c)) (ctype c) (cnow1 c - t0) None.

(** The readings of [performance.now()] a sequence of captures makes after
    [startRecording], in the order they are made: both calls of the first
    [pushRecord], then the one call of each later [pushRecord]. *)
Definition readings (cs : list Capture) : list Z :=
  match cs with
  | [] => []
  | c0 :: _ => cnow0 c0 :: (cnow1 <$> cs)
  end.

(** The first offset of a session as the specification has it: the one
    event captured right after [startRecording] has offset 0. *)
Definition first_offset_zero (s : Piano) (c : Capture) : Prop :=
  t <$> recording (capture c (startRecording s)) = [0].

(** [ev'] is the event object [ev] after some runs of [sched]: same key,
    type and offset, and a flag that, once true, stays true. *)
Definition later_event (ev ev' : RecordedEvent) : Prop :=
  key ev' = key ev /\ type ev' = type ev /\ t ev' = t ev /\
  (truthy (__scheduled ev) = true -> truthy (__scheduled ev') = true).

(** A call of the player stands for an event of the recording. *)
Definition call_of (evs : list RecordedEvent) (d : Dispatch) : Prop :=
  exists ev, ev ∈ evs /\ key (event d) = key ev /\ type (event d) = type ev /\
             t (event d) = t ev.

(** The timing property as the specification has it: no call of a
    playback is made before the offset of its event has elapsed. *)
Definition never_early (start : Z) (frames : list Z) (s : Piano) : Prop :=
  forall d, d ∈ (playRecording start frames s).2 -> t (event d) <= elapsed d.

(** ** Note names *)

(** [const NOTE_NAMES] *)
Definition NOTE_NAMES : list string :=
  ["C"; "C#"; "D"; "D#"; "E"; "F"; "F#"; "G"; "G#"; "A"; "A#"; "B"].

(** Reading an array at an integer: [undefined] outside of it. *)
Definition array_get {A} (l : list A) (i : Z) : option A :=
  if i <? 0 then None else l !! Z.to_nat i.

(** [midiToName]. [%] is the remainder with the sign of the dividend
    ([Z.rem]); [Math.floor(midi / 12)] is [Z.div]; in the template an
    undefined [name] prints as [undefined] and the octave in decimal. *)
Definition midiToName (midi : Z) : string :=
  let name := array_get NOTE_NAMES (Z.rem midi 12) in
  let octave := midi / 12 - 1 in
  default "undefined" name +:+ pretty octave.

(** [const currentBaseMidi = 12 * (octave + 1)] *)
Definition currentBaseMidi (s : Piano) : Z := 12 * (octave s + 1).

(** The keys in the order of their offsets, as the header of the source
    lists them. *)
Definition KEY_ROW : list string :=
  ["A"; "W"; "S"; "E"; "D"; "F"; "T"; "G"; "Y"; "H"; "U"; "J";
   "K"; "O"; "L"; "P"; ";"; "'"].

(** ** Vocabulary of the further properties *)

(** The actions that are one operation on the state by themselves; the
    others (keyboard events, notes, playback) go through [startNote],
    [stopNote] and [pushRecord], or are the sustain and octave setters the
    keyboard shares with the controls. *)
Definition plain (a : Action) : bool :=
  match a with
  | SetVolume _ | SetWaveform _ | EnableAudio | StartRecording
  | StopRecording | AllNotesOff | StopTimer _ => true
  | _ => false
  end.

(** A run all of whose actions satisfy [ok] in the state they act on. *)
Fixpoint allowed_run (ok : Action -> Piano -> Prop) (acts : list Action) (s : Piano) : Prop :=
  match acts with
  | [] => True
  | a :: rest => ok a s /\ allowed_run ok rest (step a s)
  end.

(** The octaves the controls can reach. *)
Definition octave_in_range (s : Piano) : Prop := 1 <= octave s <= 8.

(** The highlighted keys are the keys with an active voice. *)
Definition highlights_match (s : Piano) : Prop :=
  downSet s = dom (activeVoices s).

(** The [stop] timer of a voice exists only once [release] has set it: a
    [StopTimer] action is possible on a voice that has been released. *)
Definition timer_pending (a : Action) (s : Piano) : Prop :=
  match a with
  | StopTimer voice => exists v, voices s !! voice = Some v /\ releasing v = true
  | _ => True
  end.

(** The voices are accounted for: every key of the active set holds a
    voice of the store that is sounding (neither released nor ended); no
    two keys hold the same voice; every voice of the store that no key
    holds has been released; and there is no voice before the audio
    context exists. *)
Definition store_ok (s : Piano) : Prop :=
  (forall k voice, activeVoices s !! k = Some voice ->
     exists v, voices s !! voice = Some v /\ releasing v = false /\ ended v = false) /\
  (forall k1 k2 voice,
     activeVoices s !! k1 = Some voice -> activeVoices s !! k2 = Some voice -> k1 = k2) /\
  (forall voice v, voices s !! voice = Some v ->
     (exists k, activeVoices s !! k = Some voice) \/ releasing v = true) /\
  (voices s <> [] -> armed s = true).

(** What [pushRecord] stores of an event; the [__scheduled] flag is the
    player's. *)
Definition event_data (ev : RecordedEvent) : string * Transition * Z :=
  (key ev, type ev, t ev).

(** Any action but the Record button. *)
Definition not_record_button (a : Action) (s : Piano) : Prop :=
  a <> StartRecording.

(** The actions that do not come from the keyboard and are not the Record
    button: pointer taps, controls, playback, timers. *)
Definition off_keyboard (a : Action) : bool :=
  match a with
  | KeyDown _ _ _ | KeyUp _ _ _ | StartRecording => false
  | _ => true
  end.

(** The recorded keys are upper-cased keys of the table. *)
Definition recorded_keys_ok (s : Piano) : Prop :=
  Forall (fun ev => toUpperCase (key ev) = key ev /\
                    is_Some (KEY_TO_OFFSET !! key ev)) (recording s).

(** The events no playback has reached yet: flag absent or false. *)
Definition unplayed (evs : list RecordedEvent) : Prop :=
  Forall (fun ev => truthy (__scheduled ev) = false) evs.

(** The data of the events the player dispatched, in the order of the
    calls. *)
Definition played (calls : list Dispatch) : list (string * Transition * Z) :=
  (fun d => event_data (event d)) <$> calls.

(** * Properties *)

(** ** Key table *)

Example keyToMidi_A4 : keyToMidi 4 "a" = Some 60.
Proof. reflexivity. Qed.

Example keyToMidi_semicolon : keyToMidi 4 ";" = Some 76.
Proof. reflexivity. Qed.

Example keyToMidi_unmapped : keyToMidi 4 "Q" = None.
Proof. reflexivity. Qed.

(** ** Upper-casing *)

Lemma upper_ascii_idemp c : upper_ascii (upper_ascii c) = upper_ascii c.
Proof. by destruct c as [[] [] [] [] [] [] [] []]. Qed.

Lemma toUpperCase_idemp s : toUpperCase (toUpperCase s) = toUpperCase s.
Proof.
  induction s as [|c s IH]; simpl; [done|].
  by rewrite upper_ascii_idemp, IH.
Qed.

(** ** Pitch

    One octave up, the MIDI number of a key rises by 12, and in exact
    arithmetic the frequency doubles. The doubles [Math.pow] returns are
    rounded, each on its own, so nothing is derived here about the quotient
    of two computed frequencies. *)

Lemma midiToFreq_pos midi : (0 < midiToFreq midi)%R.
Proof.
  unfold midiToFreq, Rpower.
  apply Rmult_lt_0_compat; [lra | apply exp_pos].
Qed.

Lemma midiToFreq_octave midi : midiToFreq (midi + 12) = (2 * midiToFreq midi)%R.
Proof.
  unfold midiToFreq. rewrite plus_IZR.
  replace ((IZR midi + 12 - 69) / 12)%R with ((IZR midi - 69) / 12 + 1)%R by lra.
  rewrite Rpower_plus, Rpower_1 by lra. lra.
Qed.

Lemma keyToMidi_octave o k midi :
  keyToMidi o k = Some midi -> keyToMidi (o + 1) k = Some (midi + 12).
Proof.
  unfold keyToMidi. destruct (KEY_TO_OFFSET !! toUpperCase k) as [off|]; [|done].
  intros [= <-]. f_equal. lia.
Qed.

(** ** Voice manager: note-on *)

Lemma keyToMidi_upper o k : keyToMidi o (toUpperCase k) = keyToMidi o k.
Proof. unfold keyToMidi. by rewrite toUpperCase_idemp. Qed.

(** What [startNote] does for a silent, mapped key. *)
Lemma startNote_fresh k s midi :
  activeVoices s !! toUpperCase k = None ->
  keyToMidi (octave s) k = Some midi ->
  voices (startNote k s)
    = voices s ++ [newVoice (midiToFreq midi) (waveform s) (volume s)] /\
  activeVoices (startNote k s)
    = <[toUpperCase k := length (voices s)]> (activeVoices s) /\
  downSet (startNote k s) = {[toUpperCase k]} ∪ downSet s.
Proof.
  intros Hnone Hmidi. unfold startNote.
  rewrite Hnone, keyToMidi_upper, Hmidi.
  unfold ensureAudio. by destruct (armed s).
Qed.

Lemma startNote_active k s voice :
  activeVoices s !! toUpperCase k = Some voice -> startNote k s = s.
Proof. intros H. unfold startNote. by rewrite H. Qed.

Lemma startNote_no_offset k s :
  KEY_TO_OFFSET !! toUpperCase k = None -> startNote k s = s.
Proof.
  intros H. unfold startNote, keyToMidi.
  rewrite toUpperCase_idemp, H. by destruct (activeVoices s !! toUpperCase k).
Qed.

(** C4. [startNote] on a key that already has an active voice returns the
    state as it was (no voice is created, the existing one is untouched);
    hence a second [startNote] right after a first changes nothing, and the
    two calls together create at most one voice, the one the key maps to. *)
Theorem startNote_idempotent k s :
  (forall voice, activeVoices s !! toUpperCase k = Some voice -> startNote k s = s) /\
  startNote k (startNote k s) = startNote k s /\
  (forall midi,
      activeVoices s !! toUpperCase k = None ->
      keyToMidi (octave s) k = Some midi ->
      voices (startNote k (startNote k s))
        = voices s ++ [newVoice (midiToFreq midi) (waveform s) (volume s)] /\
      activeVoices (startNote k (startNote k s)) !! toUpperCase k
        = Some (length (voices s))).
Proof.
  assert (Hidem : startNote k (startNote k s) = startNote k s).
  { destruct (activeVoices s !! toUpperCase k) as [voice|] eqn:Hact.
    - by rewrite !(startNote_active _ _ _ Hact).
    - destruct (keyToMidi (octave s) k) as [midi|] eqn:Hmidi.
      + destruct (startNote_fresh _ _ _ Hact Hmidi) as (_ & Hav & _).
        eapply startNote_active. rewrite Hav. apply lookup_insert_eq.
      + assert (Hskip : startNote k s = s); [|by rewrite !Hskip].
        unfold startNote. by rewrite Hact, keyToMidi_upper, Hmidi. }
  split; [apply startNote_active|]. split; [done|].
  intros midi Hact Hmidi. rewrite Hidem.
  destruct (startNote_fresh _ _ _ Hact Hmidi) as (Hv & Hav & _).
  split; [done|]. rewrite Hav. apply lookup_insert_eq.
Qed.

Lemma startNote_idempotent_witness :
  startNote "a" (startNote "a" initial) = startNote "a" initial /\
  length (voices (startNote "a" (startNote "a" initial))) = 1%nat /\
  activeVoices (startNote "a" (startNote "a" initial)) !! "A"%string = Some 0%nat.
Proof.
  destruct (startNote_idempotent "a" initial) as (_ & Hidem & Hone).
  destruct (Hone 60 eq_refl eq_refl) as [Hv Hav].
  split; [exact Hidem|]. split; [|exact Hav].
  rewrite Hv. reflexivity.
Defined.

(** C6. A note-on for a key without a pitch offset is ignored. For a key
    string of ASCII characters (where [toUpperCase] is the code's) whose
    upper-cased form has no entry in [KEY_TO_OFFSET]: [startNote] returns
    the state unchanged (no voice created, active set unchanged, nothing
    raised), and the keyboard handler leaves the voices and the active set
    as they were. *)
Theorem startNote_unmapped key s :
  ascii_key key = true ->
  KEY_TO_OFFSET !! toUpperCase key = None ->
  startNote key s = s /\
  forall now0 now1,
    voices (handleDown key now0 now1 s) = voices s /\
    activeVoices (handleDown key now0 now1 s) = activeVoices s.
Proof.
  intros _ H. split; [by apply startNote_no_offset|].
  intros now0 now1. unfold handleDown. rewrite H.
  by repeat case_decide.
Qed.

Lemma startNote_unmapped_witness :
  ascii_key "q" = true /\
  KEY_TO_OFFSET !! toUpperCase "q" = None /\
  startNote "q" initial = initial /\
  voices (handleDown "q" 0 0 initial) = voices initial.
Proof.
  destruct (startNote_unmapped "q" initial eq_refl eq_refl) as [H1 H2].
  split; [reflexivity|]. split; [reflexivity|].
  split; [exact H1 | exact (proj1 (H2 0 0))].
Defined.

(** ** Voice manager: all notes off *)

Lemma release_idemp v : release (release v) = release v.
Proof. unfold release. by destruct (ended v) eqn:He; simpl; rewrite ?He. Qed.

(** The [forEach((v) => v.release())] of [allNotesOff], as a fold over the
    map: a voice of the store is released when some key holds it and is
    left alone otherwise. *)
Lemma release_active_voices (vs : list Voice) (m : gmap string nat) :
  let r := map_fold (fun _ voice vs => alter release voice vs) vs m in
  length r = length vs /\
  forall i v, vs !! i = Some v ->
    (r !! i = Some v \/ r !! i = Some (release v)) /\
    ((exists k, m !! k = Some i) -> r !! i = Some (release v)) /\
    ((forall k, m !! k <> Some i) -> r !! i = Some v).
Proof.
  simpl. apply (map_fold_weak_ind (fun r m =>
    length r = length vs /\
    forall i v, vs !! i = Some v ->
      (r !! i = Some v \/ r !! i = Some (release v)) /\
      ((exists k, m !! k = Some i) -> r !! i = Some (release v)) /\
      ((forall k, m !! k <> Some i) -> r !! i = Some v))).
  - split; [done|]. intros i v Hv. split; [by left|]. split; [|done].
    intros [k Hk]. by rewrite lookup_empty in Hk.
  - intros k x m' r Hfresh [Hlen IH]. split; [by rewrite length_alter|].
    intros i v Hv. destruct (IH i v Hv) as (Hor & Hin & Hout).
    destruct (decide (x = i)) as [->|Hne].
    + assert (Hrel : alter release i r !! i = Some (release v)).
      { rewrite list_lookup_alter_eq.
        destruct Hor as [-> | ->]; simpl; [done | by rewrite release_idemp]. }
      split; [by right|]. split; [done|].
      intros Hno. exfalso. apply (Hno k). apply lookup_insert_eq.
    + rewrite list_lookup_alter_ne by done.
      split; [done|]. split.
      * intros [k' Hk']. apply Hin. exists k'.
        destruct (decide (k = k')) as [->|Hkk].
        -- rewrite lookup_insert_eq in Hk'. congruence.
        -- by rewrite lookup_insert_ne in Hk'.
      * intros Hno. apply Hout. intros k' Hk'. apply (Hno k').
        destruct (decide (k = k')) as [->|Hkk]; [congruence|].
        by rewrite lookup_insert_ne.
Qed.

(** C5. Whatever the state (sustain on or off, recording or not, any
    voices active), after [allNotesOff] the active set is empty and no key
    is highlighted; every voice that was active has had [release] called on
    it, and no other voice of the store is touched. *)
Theorem allNotesOff_silences s :
  activeVoices (allNotesOff s) = ∅ /\
  downSet (allNotesOff s) = ∅ /\
  length (voices (allNotesOff s)) = length (voices s) /\
  (forall k voice v,
      activeVoices s !! k = Some voice -> voices s !! voice = Some v ->
      voices (allNotesOff s) !! voice = Some (release v)) /\
  (forall voice v,
      (forall k, activeVoices s !! k <> Some voice) -> voices s !! voice = Some v ->
      voices (allNotesOff s) !! voice = Some v).
Proof.
  destruct (release_active_voices (voices s) (activeVoices s)) as [Hlen Hall].
  split; [done|]. split; [done|]. split; [exact Hlen|]. split.
  - intros k voice v Hk Hv. destruct (Hall voice v Hv) as (_ & Hin & _).
    apply Hin. by exists k.
  - intros voice v Hno Hv. destruct (Hall voice v Hv) as (_ & _ & Hout).
    by apply Hout.
Qed.

Lemma allNotesOff_silences_witness :
  let s := run [SetSustain true; StartRecording; NoteOn "a"; NoteOn "w"; NoteOff "a"] initial in
  dom (activeVoices s) = {["A"; "W"]}%string /\
  activeVoices (allNotesOff s) = ∅ /\
  releasing <$> voices (allNotesOff s) = [true; true].
Proof.
  split; [by vm_compute|].
  split; [exact (proj1 (allNotesOff_silences _))|].
  by vm_compute.
Defined.

(** ** Sounding voices keep their parameters *)

Lemma same_params_refl v : same_params v v.
Proof. by repeat split. Qed.

Lemma same_params_release v : same_params v (release v).
Proof. unfold release. destruct (ended v); by repeat split. Qed.

Lemma same_params_stop v : same_params v (stop v).
Proof. unfold stop. destruct (ended v); by repeat split. Qed.

Lemma keeps_voices_refl vs : keeps_voices vs vs.
Proof. intros i v Hv. exists v. split; [done | apply same_params_refl]. Qed.

Lemma keeps_voices_trans vs1 vs2 vs3 :
  keeps_voices vs1 vs2 -> keeps_voices vs2 vs3 -> keeps_voices vs1 vs3.
Proof.
  intros H12 H23 i v Hv.
  destruct (H12 i v Hv) as (v2 & Hv2 & (? & ? & ? & ?)).
  destruct (H23 i v2 Hv2) as (v3 & Hv3 & (? & ? & ? & ?)).
  exists v3. split; [done|]. repeat split; congruence.
Qed.

Lemma keeps_voices_alter f vs voice :
  (forall v, same_params v (f v)) -> keeps_voices vs (alter f voice vs).
Proof.
  intros Hf i v Hv. destruct (decide (voice = i)) as [->|Hne].
  - exists (f v). rewrite list_lookup_alter_eq, Hv. split; [done | apply Hf].
  - exists v. rewrite list_lookup_alter_ne by done.
    split; [done | apply same_params_refl].
Qed.

Lemma voices_ensureAudio s : voices (ensureAudio s) = voices s.
Proof. unfold ensureAudio. by destruct (armed s). Qed.

Lemma startNote_keeps s k : keeps_voices (voices s) (voices (startNote k s)).
Proof.
  unfold startNote.
  destruct (activeVoices s !! toUpperCase k); [apply keeps_voices_refl|].
  destruct (keyToMidi _ _); [|apply keeps_voices_refl].
  simpl. rewrite voices_ensureAudio. intros i v Hv. exists v.
  split; [by apply lookup_app_l_Some | apply same_params_refl].
Qed.

Lemma stopNote_keeps s k : keeps_voices (voices s) (voices (stopNote k s)).
Proof.
  unfold stopNote.
  destruct (activeVoices s !! toUpperCase k); [|apply keeps_voices_refl].
  destruct (sustain s); [apply keeps_voices_refl|].
  simpl. apply keeps_voices_alter, same_params_release.
Qed.

Lemma allNotesOff_keeps s : keeps_voices (voices s) (voices (allNotesOff s)).
Proof.
  intros i v Hv.
  destruct (release_active_voices (voices s) (activeVoices s)) as [_ Hall].
  destruct (Hall i v Hv) as ([H|H] & _).
  - exists v. split; [exact H | apply same_params_refl].
  - exists (release v). split; [exact H | apply same_params_release].
Qed.

Lemma voices_pushRecord k ty now0 now1 s :
  voices (pushRecord k ty now0 now1 s) = voices s /\
  activeVoices (pushRecord k ty now0 now1 s) = activeVoices s.
Proof. unfold pushRecord. by destruct (recordStartRef s). Qed.

Lemma handleDown_keeps s k now0 now1 :
  keeps_voices (voices s) (voices (handleDown k now0 now1 s)).
Proof.
  unfold handleDown. case_decide; [apply keeps_voices_refl|].
  set (s2 := if decide (toUpperCase k = "[") then _ else _).
  assert (Hs2 : voices s2 = voices s) by (subst s2; by repeat case_decide).
  rewrite <- Hs2.
  destruct (KEY_TO_OFFSET !! toUpperCase k); [|apply keeps_voices_refl].
  destruct (isRecording _); [|apply startNote_keeps].
  rewrite (proj1 (voices_pushRecord _ _ _ _ _)). apply startNote_keeps.
Qed.

Lemma handleUp_keeps s k now0 now1 :
  keeps_voices (voices s) (voices (handleUp k now0 now1 s)).
Proof.
  unfold handleUp.
  destruct (KEY_TO_OFFSET !! toUpperCase k); [|apply keeps_voices_refl].
  destruct (isRecording s); [|apply stopNote_keeps].
  rewrite <- (proj1 (voices_pushRecord (toUpperCase k) up now0 now1 s)) at 1.
  apply stopNote_keeps.
Qed.

Lemma dispatch_keeps now evs s :
  keeps_voices (voices s) (voices (dispatch now evs s).1.2).
Proof.
  revert s. induction evs as [|ev rest IH]; intros s; simpl.
  - apply keeps_voices_refl.
  - destruct (due now ev).
    + set (s1 := match type ev with down => _ | up => _ end).
      specialize (IH s1).
      destruct (dispatch now rest s1) as [[rest' s2] calls]. simpl in *.
      eapply keeps_voices_trans; [|exact IH].
      subst s1. destruct (type ev); [apply startNote_keeps | apply stopNote_keeps].
    + specialize (IH s). by destruct (dispatch now rest s) as [[rest' s2] calls].
Qed.

Lemma sched_keeps now s : keeps_voices (voices s) (voices (sched now s).1).
Proof.
  unfold sched. pose proof (dispatch_keeps now (init_flag <$> recording s) s) as H.
  by destruct (dispatch now (init_flag <$> recording s) s) as [[evs s1] calls].
Qed.

Lemma sched_loop_keeps start frames s :
  keeps_voices (voices s) (voices (sched_loop start frames s).1).
Proof.
  revert s. induction frames as [|r rest IH]; intros s; simpl.
  - apply keeps_voices_refl.
  - pose proof (sched_keeps (r - start) s) as H1.
    destruct (sched (r - start) s) as [s1 calls]. simpl in H1.
    destruct (pending s1); [|done].
    specialize (IH s1). destruct (sched_loop start rest s1) as [s2 calls'].
    simpl in *. by eapply keeps_voices_trans.
Qed.

Lemma step_keeps a s : keeps_voices (voices s) (voices (step a s)).
Proof.
  destruct a; simpl;
    try apply keeps_voices_refl;
    auto using handleDown_keeps, handleUp_keeps, startNote_keeps,
               stopNote_keeps, allNotesOff_keeps.
  - rewrite voices_ensureAudio. apply keeps_voices_refl.
  - unfold playRecording. destruct (recording s); [apply keeps_voices_refl|].
    apply sched_loop_keeps.
  - apply keeps_voices_alter, same_params_stop.
Qed.

Lemma run_keeps acts s : keeps_voices (voices s) (voices (run acts s)).
Proof.
  revert s. induction acts as [|a acts IH]; intros s; simpl.
  - apply keeps_voices_refl.
  - eapply keeps_voices_trans; [apply step_keeps | apply IH].
Qed.

(** C7. A change of octave, waveform or volume leaves the store of voices
    and the active set as they are; whatever happens afterwards, every
    voice started before the change keeps its frequency, its oscillator
    types and its peak volume; and a note started after the change is built
    from the new octave, waveform and volume. *)
Theorem config_change_not_retroactive a s :
  is_config a = true ->
  voices (step a s) = voices s /\
  activeVoices (step a s) = activeVoices s /\
  (forall acts voice v,
      voices s !! voice = Some v ->
      exists v', voices (run acts (step a s)) !! voice = Some v' /\
        freq v' = freq v /\ osc1_type v' = osc1_type v /\
        osc2_type v' = osc2_type v /\ peak v' = peak v) /\
  (forall k midi,
      activeVoices s !! toUpperCase k = None ->
      keyToMidi (octave (step a s)) k = Some midi ->
      voices (startNote k (step a s))
        = voices s ++ [newVoice (midiToFreq midi) (waveform (step a s))
                                (volume (step a s))]).
Proof.
  intros Hcfg.
  assert (Hv : voices (step a s) = voices s) by (by destruct a).
  assert (Hav : activeVoices (step a s) = activeVoices s) by (by destruct a).
  split; [done|]. split; [done|]. split.
  - intros acts voice v Hlook.
    apply (run_keeps acts (step a s)). by rewrite Hv.
  - intros k midi Hnone Hmidi. rewrite <- Hav in Hnone.
    destruct (startNote_fresh _ _ _ Hnone Hmidi) as (Hnew & _).
    by rewrite Hnew, Hv.
Qed.

Lemma config_change_not_retroactive_witness :
  let s := startNote "a" initial in
  exists v', voices (run [NoteOn "s"; SetVolume 1%R] (step OctaveUp s)) !! 0%nat = Some v' /\
    freq v' = midiToFreq 60 /\
    (freq <$> voices (startNote "s" (step OctaveUp s))) = [midiToFreq 60; midiToFreq 74].
Proof.
  intros s.
  destruct (config_change_not_retroactive OctaveUp s eq_refl) as (_ & _ & Hold & Hnew).
  destruct (Hold [NoteOn "s"; SetVolume 1%R] 0%nat
              (newVoice (midiToFreq 60) sine (35 / 100)%R) eq_refl)
    as (v' & Hv' & Hf & _).
  exists v'. split; [exact Hv'|]. split; [exact Hf|].
  rewrite (Hnew "s"%string 74 eq_refl eq_refl). reflexivity.
Defined.

(** ** Recorder *)

Lemma captureAll_started cs s t0 :
  recordStartRef s = Some t0 ->
  recordStartRef (captureAll cs s) = Some t0 /\
  recording (captureAll cs s) = recording s ++ (event_of t0 <$> cs).
Proof.
  revert s. induction cs as [|c cs IH]; intros s Href; simpl.
  - by rewrite app_nil_r.
  - destruct (IH (capture c s)) as [Hr Hrec].
    { unfold capture, pushRecord. by rewrite Href. }
    split; [done|]. rewrite Hrec. unfold capture at 1, pushRecord.
    rewrite Href. simpl. by rewrite <- app_assoc.
Qed.

Lemma captureAll_fresh c0 cs s :
  recordStartRef (captureAll (c0 :: cs) (startRecording s)) = Some (cnow0 c0) /\
  recording (captureAll (c0 :: cs) (startRecording s))
    = event_of (cnow0 c0) <$> (c0 :: cs).
Proof.
  simpl. destruct (captureAll_started cs (capture c0 (startRecording s)) (cnow0 c0))
    as [Hr Hrec]; [done|].
  split; [done|]. by rewrite Hrec.
Qed.

Lemma Sorted_shift t0 (l : list Z) :
  Sorted Z.le l -> Sorted Z.le ((fun x => x - t0) <$> l).
Proof.
  induction 1 as [|x l Hs IH Hhd]; simpl; constructor; [done|].
  destruct Hhd; simpl; constructor. lia.
Qed.

(** C8, as stated, fails: [pushRecord] reads the clock twice, once for the
    start timestamp and once for the offset, and when the clock advances
    between the two readings the first event has a positive offset. *)
Lemma first_offset_zero_counterexample :
  ~ first_offset_zero initial (mkCapture "a" down 1000 1001).
Proof. unfold first_offset_zero. vm_compute. discriminate. Qed.

(** C8, amended. [startRecording] empties the event sequence and clears the
    start timestamp. The first event captured afterwards sets the start
    timestamp to the first clock reading of its [pushRecord] call, and its
    offset is the second reading of that call minus the first: 0 when the
    two readings coincide. Every captured event's offset is its capture
    time minus the start timestamp, and with a monotonic clock the offsets
    are non-negative and non-decreasing in insertion order. *)
Theorem recording_offsets s cs :
  recording (startRecording s) = [] /\
  recordStartRef (startRecording s) = None /\
  (forall c0 rest, cs = c0 :: rest ->
     let s' := captureAll cs (startRecording s) in
     recordStartRef s' = Some (cnow0 c0) /\
     recording s' = event_of (cnow0 c0) <$> cs /\
     t <$> recording s' = (fun c => cnow1 c - cnow0 c0) <$> cs /\
     (cnow1 c0 = cnow0 c0 -> head (t <$> recording s') = Some 0)) /\
  (Sorted Z.le (readings cs) ->
     let s' := captureAll cs (startRecording s) in
     Sorted Z.le (t <$> recording s') /\ Forall (fun x => 0 <= x) (t <$> recording s')).
Proof.
  split; [done|]. split; [done|].
  assert (Hoff : forall c0 rest, cs = c0 :: rest ->
    t <$> recording (captureAll cs (startRecording s))
      = (fun x => x - cnow0 c0) <$> (cnow1 <$> cs)).
  { intros c0 rest ->. rewrite (proj2 (captureAll_fresh c0 rest s)).
    rewrite <- !list_fmap_compose. done. }
  split.
  - intros c0 rest Hcs s'. subst s'.
    rewrite (Hoff _ _ Hcs). subst cs.
    destruct (captureAll_fresh c0 rest s) as [Href Hrec].
    split; [done|]. split; [done|].
    split; [by rewrite <- list_fmap_compose|].
    intros Heq. simpl. f_equal. lia.
  - intros Hsorted s'. subst s'. destruct cs as [|c0 rest]; [by split; constructor|].
    rewrite (Hoff c0 rest eq_refl). unfold readings in Hsorted. split.
    + apply Sorted_shift. by apply Sorted_inv in Hsorted as [? _].
    + apply Sorted_StronglySorted in Hsorted; [|intros ???; lia].
      apply StronglySorted_inv in Hsorted as [_ Hall].
      rewrite Forall_fmap. eapply Forall_impl; [exact Hall|].
      simpl. intros; lia.
Qed.

Lemma recording_offsets_witness :
  let cs := [mkCapture "a" down 1000 1000; mkCapture "a" up 1200 1200;
             mkCapture "s" down 1250 1250; mkCapture "s" up 1500 1500] in
  Sorted Z.le (readings cs) /\
  t <$> recording (captureAll cs (startRecording initial)) = [0; 200; 250; 500] /\
  Sorted Z.le (t <$> recording (captureAll cs (startRecording initial))).
Proof.
  intros cs.
  destruct (recording_offsets initial cs) as (_ & _ & Hoffs & Hmono).
  assert (Hs : Sorted Z.le (readings cs)).
  { unfold cs, readings. simpl. repeat constructor; lia. }
  split; [exact Hs|]. split.
  - destruct (Hoffs _ _ eq_refl) as (_ & _ & Ht & _). rewrite Ht. reflexivity.
  - exact (proj1 (Hmono Hs)).
Defined.

(** ** Player *)

Lemma later_event_refl ev : later_event ev ev.
Proof. by repeat split. Qed.

Lemma later_event_trans ev1 ev2 ev3 :
  later_event ev1 ev2 -> later_event ev2 ev3 -> later_event ev1 ev3.
Proof.
  intros (? & ? & ? & ?) (? & ? & ? & ?). repeat split; try congruence. auto.
Qed.

Lemma later_event_init ev : later_event ev (init_flag ev).
Proof.
  unfold init_flag. destruct (truthy (__scheduled ev)) eqn:E; repeat split; try done.
  by rewrite E.
Qed.

(** What one [forEach] pass returns: the same event objects, each either
    already dispatched or not yet within reach of [now], and calls that
    all carry [now] and an event that was due. *)
Lemma dispatch_spec now evs s :
  let '(evs', _, calls) := dispatch now evs s in
  Forall2 later_event evs evs' /\
  Forall (fun ev => truthy (__scheduled ev) = true \/ now + 5 < t ev) evs' /\
  Forall (fun d => elapsed d = now /\ event d ∈ evs /\ due now (event d) = true) calls.
Proof.
  revert s. induction evs as [|ev rest IH]; intros s; simpl.
  - repeat split; constructor.
  - destruct (due now ev) eqn:Hdue.
    + set (s1 := match type ev with down => _ | up => _ end).
      specialize (IH s1). destruct (dispatch now rest s1) as [[rest' s2] calls].
      destruct IH as (Hrel & Hflags & Hcalls). split; [|split].
      * constructor; [by repeat split | done].
      * constructor; [by left | done].
      * constructor; [repeat split; [apply list_elem_of_here | done]|].
        eapply Forall_impl; [exact Hcalls|]. simpl.
        intros d (? & ? & ?). repeat split; [done | by apply list_elem_of_further | done].
    + specialize (IH s). destruct (dispatch now rest s) as [[rest' s2] calls].
      destruct IH as (Hrel & Hflags & Hcalls). split; [|split].
      * constructor; [apply later_event_refl | done].
      * constructor; [|done]. unfold due in Hdue.
        destruct (truthy (__scheduled ev)); [by left|]. right. simpl in Hdue. lia.
      * eapply Forall_impl; [exact Hcalls|]. simpl.
        intros d (? & ? & ?). repeat split; [done | by apply list_elem_of_further | done].
Qed.

Lemma due_offset now ev : due now ev = true -> t ev <= now + 5.
Proof. unfold due. intros [_ H]%andb_true_iff. lia. Qed.

Lemma call_of_later evs evs' d :
  Forall2 later_event evs evs' -> call_of evs' d -> call_of evs d.
Proof.
  intros Hrel (ev' & Hin & Hk & Hty & Ht).
  apply list_elem_of_lookup in Hin as [i Hi].
  destruct (Forall2_lookup_r _ _ _ _ _ Hrel Hi) as (ev & Hev & (? & ? & ? & _)).
  exists ev. split; [by eapply list_elem_of_lookup_2|]. repeat split; congruence.
Qed.

Lemma sched_spec now s :
  Forall2 later_event (recording s) (recording (sched now s).1) /\
  Forall (fun ev => truthy (__scheduled ev) = true \/ now + 5 < t ev)
         (recording (sched now s).1) /\
  Forall (fun d => elapsed d = now /\ call_of (recording s) d /\
                   t (event d) <= elapsed d + 5) (sched now s).2.
Proof.
  unfold sched. pose proof (dispatch_spec now (init_flag <$> recording s) s) as H.
  destruct (dispatch now (init_flag <$> recording s) s) as [[evs s1] calls].
  destruct H as (Hrel & Hflags & Hcalls). simpl.
  assert (Hinit : Forall2 later_event (recording s) (init_flag <$> recording s)).
  { apply Forall2_fmap_r, Forall_Forall2_diag, Forall_forall.
    intros ev _. simpl. apply later_event_init. }
  split; [|split; [done|]].
  - eapply Forall2_trans; [|exact Hinit|exact Hrel].
    intros ???. apply later_event_trans.
  - eapply Forall_impl; [exact Hcalls|]. simpl. intros d (Hnow & Hin & Hdue).
    split; [done|]. split.
    + apply (call_of_later _ _ _ Hinit). by exists (event d).
    + rewrite Hnow. by apply due_offset.
Qed.

Lemma sched_loop_spec start frames s :
  Forall2 later_event (recording s) (recording (sched_loop start frames s).1) /\
  Forall (fun d => (exists r, r ∈ frames /\ elapsed d = r - start) /\
                   call_of (recording s) d /\ t (event d) <= elapsed d + 5)
         (sched_loop start frames s).2.
Proof.
  revert s. induction frames as [|r rest IH]; intros s; simpl.
  - split; [|constructor].
    apply Forall_Forall2_diag, Forall_forall. intros ev _. apply later_event_refl.
  - destruct (sched_spec (r - start) s) as (Hrel & _ & Hcalls).
    destruct (sched (r - start) s) as [s1 calls]. simpl in Hrel, Hcalls.
    assert (Hcalls' : Forall (fun d =>
              (exists r0, r0 ∈ r :: rest /\ elapsed d = r0 - start) /\
              call_of (recording s) d /\ t (event d) <= elapsed d + 5) calls).
    { eapply Forall_impl; [exact Hcalls|]. simpl. intros d (Hnow & Hof & Hle).
      split; [|done]. exists r. split; [apply list_elem_of_here | done]. }
    destruct (pending s1); [|done].
    specialize (IH s1). destruct (sched_loop start rest s1) as [s2 calls2].
    destruct IH as [Hrel2 Hcalls2]. simpl in *. split.
    + eapply Forall2_trans; [|exact Hrel|exact Hrel2].
      intros ???. apply later_event_trans.
    + apply Forall_app. split; [done|].
      eapply Forall_impl; [exact Hcalls2|]. simpl.
      intros d ((r0 & Hr0 & Hel) & Hof & Hle). split; [|split; [|done]].
      * exists r0. split; [by apply list_elem_of_further | done].
      * by apply (call_of_later _ _ _ Hrel).
Qed.

Lemma pending_false s :
  pending s = false <-> Forall (fun ev => truthy (__scheduled ev) = true) (recording s).
Proof.
  unfold pending. induction (recording s) as [|ev evs IH]; simpl.
  - split; [constructor | done].
  - rewrite orb_false_iff, negb_false_iff, IH. split.
    + intros [??]. by constructor.
    + intros [??]%Forall_cons. done.
Qed.

(** [sched] ends the chain as soon as a reading has passed every offset. *)
Lemma sched_reaches_all now s :
  Forall (fun ev => t ev <= now + 5) (recording s) ->
  pending (sched now s).1 = false.
Proof.
  intros Hreach. apply pending_false.
  destruct (sched_spec now s) as (Hrel & Hflags & _).
  assert (Hreach' : Forall (fun ev => t ev <= now + 5) (recording (sched now s).1)).
  { eapply Forall2_Forall_r; [exact Hrel|].
    eapply Forall_impl; [exact Hreach|]. simpl.
    intros ev Hle ev' (_ & _ & Ht & _). lia. }
  pose proof (conj Hflags Hreach') as H. apply Forall_and in H.
  eapply Forall_impl; [exact H|]. simpl. intros ev [[?|?] ?]; [done | lia].
Qed.

(** With a reading late enough among [frames], the chain of [sched] runs
    comes to its end: nothing is left pending. *)
Lemma sched_loop_completes start frames s r :
  r ∈ frames ->
  Forall (fun ev => t ev <= r - start + 5) (recording s) ->
  pending (sched_loop start frames s).1 = false.
Proof.
  revert s. induction frames as [|r0 rest IH]; intros s Hin Hreach.
  { by apply elem_of_nil in Hin. }
  simpl. destruct (sched_spec (r0 - start) s) as (Hrel & _ & _).
  pose proof (sched_reaches_all (r0 - start) s) as Hall.
  destruct (sched (r0 - start) s) as [s1 calls]. simpl in Hrel, Hall.
  destruct (pending s1) eqn:Hpend; [|done].
  apply elem_of_cons in Hin as [->|Hin].
  { by specialize (Hall Hreach). }
  specialize (IH s1 Hin). destruct (sched_loop start rest s1) as [s2 calls2].
  simpl in *. apply IH.
  eapply Forall2_Forall_r; [exact Hrel|].
  eapply Forall_impl; [exact Hreach|]. simpl.
  intros ev Hle ev' (_ & _ & Ht & _). lia.
Qed.

(** With nothing pending, [sched] makes no call, changes nothing and does
    not re-arm. *)
Lemma with_recording_same s : with_recording (recording s) s = s.
Proof. by destruct s. Qed.

Lemma dispatch_none_due now evs s :
  Forall (fun ev => truthy (__scheduled ev) = true) evs ->
  dispatch now evs s = (evs, s, []).
Proof.
  induction 1 as [|ev rest Hev _ IH]; simpl; [done|].
  unfold due. by rewrite Hev, IH.
Qed.

Lemma sched_nothing_pending now s :
  pending s = false -> sched now s = (s, []).
Proof.
  intros Hall%pending_false. unfold sched.
  assert (Hinit : init_flag <$> recording s = recording s).
  { rewrite <- (list_fmap_id (recording s)) at 2. apply Forall_fmap_ext_1.
    eapply Forall_impl; [exact Hall|]. simpl. intros ev Hev.
    unfold init_flag. by rewrite Hev. }
  rewrite Hinit, (dispatch_none_due _ _ _ Hall).
  by rewrite with_recording_same.
Qed.

Lemma playRecording_completes start frames s r :
  r ∈ frames ->
  Forall (fun ev => t ev <= r - start + 5) (recording s) ->
  pending (playRecording start frames s).1 = false.
Proof.
  intros Hin Hreach. unfold playRecording.
  destruct (recording s) eqn:Hrec; [by unfold pending; simpl; rewrite Hrec|].
  rewrite <- Hrec in Hreach. by eapply sched_loop_completes.
Qed.

Lemma playRecording_nothing_pending start frames s :
  pending s = false -> playRecording start frames s = (s, []).
Proof.
  intros Hpend. unfold playRecording. destruct (recording s); [done|].
  destruct frames as [|r0 rest]; simpl; [done|].
  by rewrite (sched_nothing_pending _ _ Hpend), Hpend.
Qed.

(** C2, as stated, fails: the guard of [sched] is [ev.t <= now + 5], so an
    event recorded 3 ms after the start of the session is dispatched by the
    run of [sched] that reads an elapsed time of 1 ms. *)
Lemma never_early_counterexample :
  ~ never_early 2000 [2001]
      (run [StartRecording; KeyDown "a" 100 100; KeyUp "a" 103 103; StopRecording]
           initial).
Proof.
  intros Hnever.
  specialize (Hnever (mkDispatch 1 (mkEvent "A" up 3 (Some false)))).
  assert (3 <= 1); [|lia].
  apply Hnever. vm_compute. apply list_elem_of_further, list_elem_of_here.
Qed.

(** C2, amended. Every call a playback makes is made by a run of [sched],
    stands for an event of the recording, and is made no more than 5 ms
    before the recorded offset of that event has elapsed: the elapsed time
    read by that run plus 5 is at least the offset. Playing an empty
    recording makes no call and changes nothing. *)
Theorem playback_lookahead start frames s :
  (recording s = [] -> playRecording start frames s = (s, [])) /\
  forall d, d ∈ (playRecording start frames s).2 ->
    (exists r, r ∈ frames /\ elapsed d = r - start) /\
    call_of (recording s) d /\
    t (event d) <= elapsed d + 5.
Proof.
  unfold playRecording. split; [by intros ->|].
  intros d. destruct (recording s) eqn:Hrec; [by intros ?%elem_of_nil|].
  rewrite <- Hrec. intros Hd.
  destruct (sched_loop_spec start frames s) as [_ Hcalls].
  by apply (proj1 (Forall_forall _ _) Hcalls).
Qed.

Lemma playback_lookahead_witness :
  let s := run [StartRecording; KeyDown "a" 100 100; KeyUp "a" 103 103; StopRecording]
               initial in
  let d := mkDispatch 1 (mkEvent "A" up 3 (Some false)) in
  d ∈ (playRecording 2000 [2001] s).2 /\ t (event d) <= elapsed d + 5.
Proof.
  intros s d.
  assert (Hd : d ∈ (playRecording 2000 [2001] s).2).
  { vm_compute. apply list_elem_of_further, list_elem_of_here. }
  split; [exact Hd|].
  exact (proj2 (proj2 (proj2 (playback_lookahead 2000 [2001] s) d Hd))).
Defined.

(** C9. Once a playback has dispatched every event (nothing is pending in
    the state it leaves), playing the same recording again makes no call
    at all and leaves the state as it is: the [__scheduled] flags are
    still true, since [sched] writes [false] only over a falsy flag. *)
Theorem playback_single_shot start frames s :
  pending (playRecording start frames s).1 = false ->
  forall start' frames',
    playRecording start' frames' (playRecording start frames s).1
      = ((playRecording start frames s).1, []).
Proof.
  intros Hpend start' frames'. by apply playRecording_nothing_pending.
Qed.

Lemma playback_single_shot_witness :
  let s := run [StartRecording; KeyDown "a" 100 100; KeyUp "a" 300 300; StopRecording]
               initial in
  length (playRecording 2000 [2000; 2016; 2210] s).2 = 2%nat /\
  (playRecording 3000 [3000; 3016; 3210] (playRecording 2000 [2000; 2016; 2210] s).1).2 = [].
Proof.
  intros s. split; [by vm_compute|].
  rewrite (playback_single_shot 2000 [2000; 2016; 2210] s); [reflexivity|].
  by vm_compute.
Defined.

(** ** Recorder and voice activity *)

Lemma startNote_recorder k s :
  recording (startNote k s) = recording s /\
  isRecording (startNote k s) = isRecording s /\
  recordStartRef (startNote k s) = recordStartRef s.
Proof.
  unfold startNote. destruct (activeVoices s !! toUpperCase k); [done|].
  destruct (keyToMidi _ _); [|done]. simpl.
  unfold ensureAudio. by destruct (armed s).
Qed.

(** C10. While recording, a keydown on a mapped key appends a ['down']
    event, whether or not the key already has an active voice; when it
    has one, [startNote] does nothing (voices and active set stay as they
    are) and the event is recorded all the same. *)
Theorem keydown_recorded_while_active k now0 now1 s offset :
  isRecording s = true ->
  KEY_TO_OFFSET !! toUpperCase k = Some offset ->
  recording (handleDown k now0 now1 s)
    = recording s
        ++ [mkEvent (toUpperCase k) down (now1 - default now0 (recordStartRef s)) None] /\
  isRecording (handleDown k now0 now1 s) = true /\
  (forall voice, activeVoices s !! toUpperCase k = Some voice ->
     voices (handleDown k now0 now1 s) = voices s /\
     activeVoices (handleDown k now0 now1 s) = activeVoices s).
Proof.
  intros Hrec Hoff. unfold handleDown.
  case_decide as Hsp; [by rewrite Hsp in Hoff|].
  rewrite decide_False by (by intros Heq; rewrite Heq in Hoff).
  rewrite decide_False by (by intros Heq; rewrite Heq in Hoff).
  rewrite Hoff.
  destruct (startNote_recorder (toUpperCase k) s) as (Hr & Hi & Href).
  rewrite Hi, Hrec. unfold pushRecord. rewrite Href, toUpperCase_idemp.
  split; [|split].
  - destruct (recordStartRef s); simpl; by rewrite Hr.
  - destruct (recordStartRef s); simpl; by rewrite Hi.
  - intros voice Hact.
    rewrite (startNote_active (toUpperCase k) s voice)
      by (by rewrite toUpperCase_idemp).
    by destruct (recordStartRef s).
Qed.

Lemma keydown_recorded_while_active_witness :
  let s := run [StartRecording; KeyDown "a" 100 100] initial in
  activeVoices s !! "A"%string = Some 0%nat /\
  (fun ev => (key ev, type ev, t ev)) <$> recording (handleDown "a" 130 130 s)
    = [("A"%string, down, 0); ("A"%string, down, 30)] /\
  voices (handleDown "a" 130 130 s) = voices s.
Proof.
  intros s.
  destruct (keydown_recorded_while_active "a" 130 130 s 0 eq_refl eq_refl)
    as (Hrec & _ & Hsame).
  split; [reflexivity|]. split.
  - rewrite Hrec. reflexivity.
  - exact (proj1 (Hsame 0%nat eq_refl)).
Defined.

(** ** Sustain *)

Lemma stopNote_sustained k s : sustain s = true -> stopNote k s = s.
Proof.
  intros Hs. unfold stopNote. rewrite Hs.
  by destruct (activeVoices s !! toUpperCase k).
Qed.

Lemma setSustain_voices b s :
  voices (setSustain b s) = voices s /\
  activeVoices (setSustain b s) = activeVoices s.
Proof. done. Qed.

(** C1. With sustain on, a note-on and note-off of [a] leave the voice of
    [A] in the active set, not released; switching sustain off afterwards
    releases nothing: the voice is still in the active set, [release] has
    not been called on it, and the key is still highlighted. *)
Theorem sustain_off_releases_nothing :
  let s1 := run [SetSustain true; NoteOn "a"; NoteOff "a"] initial in
  let s2 := setSustain false s1 in
  (activeVoices s1 !! "A"%string = Some 0%nat /\
   releasing <$> voices s1 = [false] /\ ended <$> voices s1 = [false]) /\
  (sustain s2 = false /\
   activeVoices s2 !! "A"%string = Some 0%nat /\
   releasing <$> voices s2 = [false] /\ ended <$> voices s2 = [false] /\
   "A"%string ∈ downSet s2).
Proof.
  intros s1 s2. repeat split; reflexivity.
Qed.

(** * Further properties of the code *)

(** ** The key table *)

(** Every entry of the table has an offset from 0 to 17 and is the key at
    that place of the row. *)
Lemma KEY_TO_OFFSET_row k offset :
  KEY_TO_OFFSET !! k = Some offset ->
  0 <= offset <= 17 /\ KEY_ROW !! Z.to_nat offset = Some k.
Proof.
  unfold KEY_TO_OFFSET. intros Hin%elem_of_list_to_map_2.
  match type of Hin with _ ∈ ?l =>
    assert (Hall : Forall (fun p : string * Z =>
      0 <= p.2 <= 17 /\ KEY_ROW !! Z.to_nat p.2 = Some p.1) l) by compute_done
  end.
  exact (proj1 (Forall_forall _ _) Hall (k, offset) Hin).
Qed.

(** X1. Within one octave no two keys sound the same note: two keys with
    the same MIDI number are the same key up to letter case. *)
Theorem keyToMidi_distinct o k1 k2 midi :
  keyToMidi o k1 = Some midi -> keyToMidi o k2 = Some midi ->
  toUpperCase k1 = toUpperCase k2.
Proof.
  unfold keyToMidi.
  destruct (KEY_TO_OFFSET !! toUpperCase k1) as [off1|] eqn:H1; [|done].
  destruct (KEY_TO_OFFSET !! toUpperCase k2) as [off2|] eqn:H2; [|done].
  intros [= <-] [= Heq].
  apply KEY_TO_OFFSET_row in H1 as [_ H1], H2 as [_ H2].
  assert (off2 = off1) as -> by lia. congruence.
Qed.

Lemma keyToMidi_distinct_witness :
  keyToMidi 4 "h" = Some 69 /\ toUpperCase "h" = toUpperCase "H".
Proof.
  split; [reflexivity|].
  exact (keyToMidi_distinct 4 "h" "H" 69 eq_refl eq_refl).
Defined.

(** X2. The label of a key. For a key of the table at an octave from -1
    on, [midiToName] finds a note name (it never prints [undefined]): the
    name at the offset modulo 12, followed by the octave, which is the
    current one for the offsets below 12 and the next one from [K] on. *)
Theorem midiToName_key o k midi :
  -1 <= o -> keyToMidi o k = Some midi ->
  exists offset name,
    KEY_TO_OFFSET !! toUpperCase k = Some offset /\
    NOTE_NAMES !! Z.to_nat (offset mod 12) = Some name /\
    midiToName midi = name +:+ pretty (o + offset / 12).
Proof.
  intros Ho. unfold keyToMidi.
  destruct (KEY_TO_OFFSET !! toUpperCase k) as [off|] eqn:Hoff; [|done].
  intros [= <-]. apply KEY_TO_OFFSET_row in Hoff as [Hrange _].
  assert (Hlt : (Z.to_nat (off mod 12) < length NOTE_NAMES)%nat).
  { simpl. pose proof (Z.mod_pos_bound off 12). lia. }
  apply lookup_lt_is_Some_2 in Hlt as [name Hname].
  exists off, name. split; [done|]. split; [done|].
  unfold midiToName, array_get.
  assert (Hrem : Z.rem (12 * (o + 1) + off) 12 = off mod 12).
  { rewrite Z.rem_mod_nonneg by lia.
    rewrite Z.add_comm, Z.mul_comm, Z.mod_add by lia. done. }
  assert (Hdiv : (12 * (o + 1) + off) / 12 - 1 = o + off / 12).
  { rewrite Z.add_comm, Z.mul_comm, Z.div_add by lia. lia. }
  rewrite Hrem, Hdiv.
  destruct (off mod 12 <? 0) eqn:Hneg;
    [pose proof (Z.mod_pos_bound off 12); lia|].
  by rewrite Hname.
Qed.

Lemma midiToName_key_witness :
  midiToName 60 = "C4"%string /\ midiToName 73 = "C#5"%string.
Proof.
  destruct (midiToName_key 4 "a" 60 ltac:(lia) eq_refl) as (off & name & Hoff & Hname & ->).
  destruct (midiToName_key 4 "o" 73 ltac:(lia) eq_refl) as (off' & name' & Hoff' & Hname' & ->).
  vm_compute in Hoff, Hoff'. injection Hoff as <-. injection Hoff' as <-.
  vm_compute in Hname, Hname'. injection Hname as <-. injection Hname' as <-.
  split; reflexivity.
Defined.

(** X3. Letter case does not matter: every entry point gives on a key the
    result it gives on the upper-cased key. *)
Theorem upper_case_irrelevant k s :
  keyToMidi (octave s) (toUpperCase k) = keyToMidi (octave s) k /\
  startNote (toUpperCase k) s = startNote k s /\
  stopNote (toUpperCase k) s = stopNote k s /\
  (forall now0 now1,
     handleDown (toUpperCase k) now0 now1 s = handleDown k now0 now1 s /\
     handleUp (toUpperCase k) now0 now1 s = handleUp k now0 now1 s /\
     forall ty, pushRecord (toUpperCase k) ty now0 now1 s = pushRecord k ty now0 now1 s).
Proof.
  split; [apply keyToMidi_upper|].
  unfold startNote, stopNote, handleDown, handleUp, pushRecord.
  by rewrite !toUpperCase_idemp.
Qed.

(** ** What the voice manager leaves alone *)

Lemma startNote_frame k s :
  octave (startNote k s) = octave s /\ sustain (startNote k s) = sustain s /\
  volume (startNote k s) = volume s /\ waveform (startNote k s) = waveform s.
Proof.
  unfold startNote. destruct (activeVoices s !! toUpperCase k); [done|].
  destruct (keyToMidi _ _); [|done]. simpl.
  unfold ensureAudio. by destruct (armed s).
Qed.

Lemma stopNote_frame k s :
  octave (stopNote k s) = octave s /\ sustain (stopNote k s) = sustain s /\
  volume (stopNote k s) = volume s /\ waveform (stopNote k s) = waveform s /\
  armed (stopNote k s) = armed s.
Proof.
  unfold stopNote. destruct (activeVoices s !! toUpperCase k); [|done].
  destruct (sustain s) eqn:Hs; [done|]. simpl. by rewrite Hs.
Qed.

Lemma stopNote_recorder k s :
  recording (stopNote k s) = recording s /\
  isRecording (stopNote k s) = isRecording s /\
  recordStartRef (stopNote k s) = recordStartRef s.
Proof.
  unfold stopNote. destruct (activeVoices s !! toUpperCase k); [|done].
  by destruct (sustain s).
Qed.

Lemma dispatch_recorder now evs s :
  recording (dispatch now evs s).1.2 = recording s /\
  isRecording (dispatch now evs s).1.2 = isRecording s /\
  recordStartRef (dispatch now evs s).1.2 = recordStartRef s.
Proof.
  revert s. induction evs as [|ev rest IH]; intros s; simpl; [done|].
  destruct (due now ev).
  - set (s1 := match type ev with down => _ | up => _ end).
    assert (Hs1 : recording s1 = recording s /\ isRecording s1 = isRecording s /\
                  recordStartRef s1 = recordStartRef s).
    { subst s1. destruct (type ev);
        [apply startNote_recorder | apply stopNote_recorder]. }
    specialize (IH s1). destruct (dispatch now rest s1) as [[rest' s2] calls].
    simpl in *. destruct Hs1 as (<- & <- & <-). exact IH.
  - specialize (IH s). by destruct (dispatch now rest s) as [[rest' s2] calls].
Qed.

(** ** Invariants of runs

    A property of the state that [startNote], [stopNote], [pushRecord],
    the flag writes of the player, the sustain and octave setters and the
    allowed plain actions preserve is preserved by every allowed run. *)

Section invariant.
Variable P : Piano -> Prop.
Variable ok : Action -> Piano -> Prop.

Hypothesis P_startNote : forall k s, P s -> P (startNote k s).
Hypothesis P_stopNote : forall k s, P s -> P (stopNote k s).
Hypothesis P_flags : forall evs s,
  Forall2 later_event (recording s) evs -> P s -> P (with_recording evs s).
Hypothesis P_pushRecord : forall k ty now0 now1 s,
  isRecording s = true -> is_Some (KEY_TO_OFFSET !! toUpperCase k) ->
  P s -> P (pushRecord k ty now0 now1 s).
Hypothesis P_setSustain : forall b s, P s -> P (setSustain b s).
Hypothesis P_octaveUp : forall s, P s -> P (octaveUp s).
Hypothesis P_octaveDown : forall s, P s -> P (octaveDown s).
Hypothesis P_plain : forall a s, plain a = true -> ok a s -> P s -> P (step a s).

Lemma inv_dispatch now evs s : P s -> P (dispatch now evs s).1.2.
Proof using P_startNote P_stopNote.
  revert s. induction evs as [|ev rest IH]; intros s HP; simpl; [done|].
  destruct (due now ev).
  - set (s1 := match type ev with down => _ | up => _ end).
    assert (HP1 : P s1) by (subst s1; destruct (type ev); auto).
    specialize (IH s1 HP1). by destruct (dispatch now rest s1) as [[rest' s2] calls].
  - specialize (IH s HP). by destruct (dispatch now rest s) as [[rest' s2] calls].
Qed.

Lemma inv_sched now s : P s -> P (sched now s).1.
Proof using P_startNote P_stopNote P_flags.
  intros HP. unfold sched.
  pose proof (inv_dispatch now (init_flag <$> recording s) s HP) as HP1.
  pose proof (dispatch_recorder now (init_flag <$> recording s) s) as (Hrec & _).
  pose proof (dispatch_spec now (init_flag <$> recording s) s) as Hspec.
  destruct (dispatch now (init_flag <$> recording s) s) as [[evs s1] calls].
  simpl in *. destruct Hspec as (Hrel & _). apply P_flags; [|done].
  rewrite Hrec. eapply Forall2_trans; [| |exact Hrel].
  { intros ???. apply later_event_trans. }
  apply Forall2_fmap_r, Forall_Forall2_diag, Forall_forall.
  intros ev _. simpl. apply later_event_init.
Qed.

Lemma inv_sched_loop start frames s : P s -> P (sched_loop start frames s).1.
Proof using P_startNote P_stopNote P_flags.
  revert s. induction frames as [|r rest IH]; intros s HP; simpl; [done|].
  pose proof (inv_sched (r - start) s HP) as HP1.
  destruct (sched (r - start) s) as [s1 calls]. simpl in HP1.
  destruct (pending s1); [|done].
  specialize (IH s1 HP1). by destruct (sched_loop start rest s1) as [s2 calls2].
Qed.

Lemma inv_playRecording start frames s : P s -> P (playRecording start frames s).1.
Proof using P_startNote P_stopNote P_flags.
  intros HP. unfold playRecording. destruct (recording s); [done|].
  by apply inv_sched_loop.
Qed.

Lemma inv_handleDown k now0 now1 s : P s -> P (handleDown k now0 now1 s).
Proof using P_startNote P_pushRecord P_setSustain P_octaveUp P_octaveDown.
  intros HP. unfold handleDown. case_decide; [by apply P_setSustain|].
  set (s2 := if decide (toUpperCase k = "[") then _ else _).
  assert (HP2 : P s2) by (subst s2; repeat case_decide; auto).
  destruct (KEY_TO_OFFSET !! toUpperCase k) eqn:Hoff; [|done].
  destruct (isRecording _) eqn:Hrec; [|by apply P_startNote].
  apply P_pushRecord; [done | by rewrite toUpperCase_idemp, Hoff | by apply P_startNote].
Qed.

Lemma inv_handleUp k now0 now1 s : P s -> P (handleUp k now0 now1 s).
Proof using P_stopNote P_pushRecord.
  intros HP. unfold handleUp.
  destruct (KEY_TO_OFFSET !! toUpperCase k) eqn:Hoff; [|done].
  apply P_stopNote. destruct (isRecording s) eqn:Hrec; [|done].
  apply P_pushRecord; [done | by rewrite toUpperCase_idemp, Hoff | done].
Qed.

Lemma inv_step a s : ok a s -> P s -> P (step a s).
Proof using All.
  intros Hok HP. destruct a;
    try (by apply P_plain);
    simpl; auto using inv_handleDown, inv_handleUp, inv_playRecording.
Qed.

Lemma inv_run acts s : allowed_run ok acts s -> P s -> P (run acts s).
Proof using All.
  revert s. induction acts as [|a acts IH]; intros s Hok HP; [done|].
  destruct Hok as [Ha Hrest]. simpl. apply IH; [done|]. by apply inv_step.
Qed.
End invariant.

Lemma allowed_run_always (ok : Action -> Piano -> Prop) acts s :
  (forall a s', ok a s') -> allowed_run ok acts s.
Proof. intros Hok. revert s. induction acts; simpl; auto. Qed.

(** ** Octave range *)

Lemma step_plain_frame a s :
  plain a = true ->
  octave (step a s) = octave s /\ sustain (step a s) = sustain s.
Proof.
  destruct a; try done; intros _; simpl.
  unfold ensureAudio. by destruct (armed s).
Qed.

(** X4. The octave never leaves the range 1..8: from a state whose octave
    is in the range, whatever is done (octave keys and buttons included),
    the octave is still in the range, and every MIDI number a key can then
    be given lies between 24 and 125. *)
Theorem octave_stays_in_range acts s :
  octave_in_range s ->
  octave_in_range (run acts s) /\
  forall k midi, keyToMidi (octave (run acts s)) k = Some midi -> 24 <= midi <= 125.
Proof.
  intros Hs.
  assert (Hrun : octave_in_range (run acts s)).
  { apply (inv_run octave_in_range (fun _ _ => True)); try done.
    - intros k s' H. unfold octave_in_range.
      by rewrite (proj1 (startNote_frame k s')).
    - intros k s' H. unfold octave_in_range.
      by rewrite (proj1 (stopNote_frame k s')).
    - intros k ty n0 n1 s' _ _ H. unfold octave_in_range, pushRecord.
      by destruct (recordStartRef s').
    - unfold octave_in_range. simpl. intros; lia.
    - unfold octave_in_range. simpl. intros; lia.
    - intros a s' Ha _ H. unfold octave_in_range.
      by rewrite (proj1 (step_plain_frame a s' Ha)).
    - by apply allowed_run_always. }
  split; [done|]. intros k midi. unfold keyToMidi.
  destruct (KEY_TO_OFFSET !! toUpperCase k) as [off|] eqn:Hoff; [|done].
  intros [= <-]. apply KEY_TO_OFFSET_row in Hoff as [Hoff _].
  unfold octave_in_range in Hrun. lia.
Qed.

Lemma octave_stays_in_range_witness :
  octave (run [OctaveUp; OctaveUp; OctaveUp; OctaveUp; OctaveUp; KeyDown "]" 0 0] initial) = 8 /\
  octave_in_range (run [OctaveDown; OctaveDown; OctaveDown; KeyDown "[" 0 0] initial).
Proof.
  split; [reflexivity|].
  apply octave_stays_in_range. unfold octave_in_range. simpl. lia.
Defined.

(** ** Highlights *)

(** X5. The highlighted keys are exactly the keys with an active voice,
    in every state a run reaches from a state where this holds (the
    freshly mounted component is one). *)
Theorem highlights_follow_voices acts s :
  highlights_match s ->
  forall k, k ∈ downSet (run acts s) <-> is_Some (activeVoices (run acts s) !! k).
Proof.
  intros Hs k. rewrite <- elem_of_dom.
  assert (Hrun : highlights_match (run acts s)); [|by rewrite Hrun].
  apply (inv_run highlights_match (fun _ _ => True)); try done.
  - intros k' s' H. unfold highlights_match, startNote.
    destruct (activeVoices s' !! toUpperCase k'); [done|].
    destruct (keyToMidi _ _); [|done]. simpl.
    rewrite dom_insert_L. unfold ensureAudio. destruct (armed s'); simpl; by rewrite H.
  - intros k' s' H. unfold highlights_match, stopNote.
    destruct (activeVoices s' !! toUpperCase k'); [|done].
    destruct (sustain s'); [done|]. simpl. by rewrite dom_delete_L, H.
  - intros k' ty n0 n1 s' _ _ H. unfold highlights_match, pushRecord.
    by destruct (recordStartRef s').
  - intros a s' Ha _ H. unfold highlights_match in *.
    destruct a; try done; simpl; rewrite ?dom_empty_L; try done.
    unfold ensureAudio. by destruct (armed s').
  - by apply allowed_run_always.
Qed.

Lemma highlights_follow_voices_witness :
  let s := run [SetSustain true; KeyDown "a" 0 0; KeyDown "w" 0 0; KeyUp "a" 0 0;
                SetSustain false; KeyUp "w" 0 0] initial in
  "A"%string ∈ downSet s /\ "W"%string ∉ downSet s.
Proof.
  intros s.
  pose proof (highlights_follow_voices
    [SetSustain true; KeyDown "a" 0 0; KeyDown "w" 0 0; KeyUp "a" 0 0;
     SetSustain false; KeyUp "w" 0 0] initial eq_refl) as H.
  split.
  - apply H. by exists 0%nat.
  - intros [v Hv]%H. vm_compute in Hv. discriminate Hv.
Defined.

(** ** The voices are accounted for *)

Lemma releasing_release v :
  releasing v = true \/ ended v = false -> releasing (release v) = true.
Proof. unfold release. destruct (ended v) eqn:He; intros [?|?]; simpl; congruence. Qed.

Lemma store_ok_ext s s' :
  voices s' = voices s -> activeVoices s' = activeVoices s ->
  (armed s = true -> armed s' = true) ->
  store_ok s -> store_ok s'.
Proof.
  unfold store_ok. intros -> -> Harm (H1 & H2 & H3 & H4).
  repeat split; auto.
Qed.

Lemma startNote_store_ok k s : store_ok s -> store_ok (startNote k s).
Proof.
  intros Hok.
  destruct (activeVoices s !! toUpperCase k) as [voice|] eqn:Hact.
  { by rewrite (startNote_active _ _ _ Hact). }
  destruct (keyToMidi (octave s) k) as [midi|] eqn:Hmidi.
  2:{ unfold startNote. by rewrite Hact, keyToMidi_upper, Hmidi. }
  destruct (startNote_fresh _ _ _ Hact Hmidi) as (Hv & Hav & _).
  assert (Harmed : armed (startNote k s) = true).
  { unfold startNote. rewrite Hact, keyToMidi_upper, Hmidi. simpl.
    unfold ensureAudio. by destruct (armed s) eqn:Ha. }
  destruct Hok as (H1 & H2 & H3 & _). unfold store_ok.
  rewrite Hv, Hav. set (nv := newVoice _ _ _).
  assert (Hnew : (voices s ++ [nv]) !! length (voices s) = Some nv).
  { by rewrite lookup_app_r, Nat.sub_diag. }
  assert (Hold : forall k0 voice, activeVoices s !! k0 = Some voice ->
                   (voice < length (voices s))%nat).
  { intros k0 voice Hk0. destruct (H1 _ _ Hk0) as (v & Hlook & _).
    by eapply lookup_lt_Some. }
  split; [|split; [|split]]; [| | |done].
  - intros k0 voice. rewrite lookup_insert. case_decide as Hk.
    + intros [= <-]. by exists nv.
    + intros Hk0. destruct (H1 _ _ Hk0) as (v & Hlook & Hflags).
      exists v. split; [by apply lookup_app_l_Some | done].
  - intros k1 k2 voice. rewrite !lookup_insert.
    repeat case_decide; try congruence.
    + intros [= <-] Hk2. apply Hold in Hk2. lia.
    + intros Hk1 [= <-]. apply Hold in Hk1. lia.
    + apply H2.
  - intros voice v [Hlook | [Hlen Hlast]]%lookup_app_Some.
    + destruct (H3 _ _ Hlook) as [[k0 Hk0] | Hrel]; [|by right].
      left. exists k0. rewrite lookup_insert_ne; [done|]. congruence.
    + left. exists (toUpperCase k).
      assert (voice = length (voices s)) as ->.
      { apply lookup_lt_Some in Hlast. simpl in Hlast. lia. }
      apply lookup_insert_eq.
Qed.

Lemma stopNote_store_ok k s : store_ok s -> store_ok (stopNote k s).
Proof.
  intros Hok. unfold stopNote.
  destruct (activeVoices s !! toUpperCase k) as [voice|] eqn:Hact; [|done].
  destruct (sustain s); [done|].
  destruct Hok as (H1 & H2 & H3 & H4). unfold store_ok. simpl.
  destruct (H1 _ _ Hact) as (v0 & Hv0 & Hrel0 & Hend0).
  split; [|split; [|split]].
  - intros k0 j. rewrite lookup_delete. case_decide as Hk; [done|].
    intros Hk0. rewrite list_lookup_alter_ne; [by eapply H1|].
    intros ->. apply Hk. by eapply H2.
  - intros k1 k2 j. rewrite !lookup_delete. repeat case_decide; try done. apply H2.
  - intros j v. destruct (decide (voice = j)) as [<-|Hne].
    + rewrite list_lookup_alter_eq, Hv0. intros [= <-]. right.
      apply releasing_release. by right.
    + rewrite list_lookup_alter_ne by done. intros Hj.
      destruct (H3 _ _ Hj) as [[k0 Hk0] | Hrel]; [|by right].
      left. exists k0. rewrite lookup_delete_ne; [done|]. congruence.
  - intros Hne. apply H4. intros Hnil. apply Hne. by rewrite Hnil.
Qed.

Lemma allNotesOff_store_ok s : store_ok s -> store_ok (allNotesOff s).
Proof.
  intros (H1 & H2 & H3 & H4). unfold store_ok.
  destruct (release_active_voices (voices s) (activeVoices s)) as [Hlen Hall].
  split; [|split; [|split]].
  - simpl. intros k j Hk. by rewrite lookup_empty in Hk.
  - simpl. intros k1 k2 j Hk. by rewrite lookup_empty in Hk.
  - intros j v' Hj. right.
    assert (Hlt : (j < length (voices s))%nat).
    { apply lookup_lt_Some in Hj. simpl in Hj. lia. }
    apply lookup_lt_is_Some_2 in Hlt as [v Hv].
    destruct (Hall j v Hv) as (Hor & Hin & _).
    destruct (H3 _ _ Hv) as [[k Hk] | Hrel].
    + simpl in Hj. rewrite (Hin (ex_intro _ k Hk)) in Hj. injection Hj as <-.
      apply releasing_release. right. destruct (H1 _ _ Hk) as (v1 & Hv1 & _ & He).
      congruence.
    + simpl in Hj. destruct Hor as [Hsame | Hsame]; rewrite Hsame in Hj;
        injection Hj as <-; [done | apply releasing_release; by left].
  - simpl. intros Hne. apply H4. intros Hnil. apply Hne.
    apply length_zero_iff_nil. rewrite Hlen, Hnil. done.
Qed.

Lemma stopTimer_store_ok voice s :
  timer_pending (StopTimer voice) s -> store_ok s -> store_ok (step (StopTimer voice) s).
Proof.
  intros (v0 & Hv0 & Hrel0) (H1 & H2 & H3 & H4). unfold store_ok. simpl.
  split; [|split; [|split]]; [|done| |].
  - intros k j Hk. destruct (H1 _ _ Hk) as (v & Hv & Hrel & Hend).
    rewrite list_lookup_alter_ne; [by exists v|]. intros ->. congruence.
  - intros j v. destruct (decide (voice = j)) as [<-|Hne].
    + rewrite list_lookup_alter_eq, Hv0. intros [= <-]. right.
      unfold stop. by destruct (ended v0).
    + rewrite list_lookup_alter_ne by done. apply H3.
  - intros Hne. apply H4. intros Hnil. apply Hne. by rewrite Hnil.
Qed.

(** X6. The voices are accounted for in every state a run reaches from
    the freshly mounted component (or from any state where they are),
    the [stop] timers firing only on released voices: each active key
    holds its own sounding voice, and every other voice ever created has
    been released, so that no voice is left sounding without a key. *)
Theorem voices_accounted_for acts s :
  store_ok s -> allowed_run timer_pending acts s -> store_ok (run acts s).
Proof.
  intros Hs Hrun. apply (inv_run store_ok timer_pending); try done.
  - apply startNote_store_ok.
  - apply stopNote_store_ok.
  - intros k ty n0 n1 s' _ _. apply store_ok_ext; try done;
      unfold pushRecord; by destruct (recordStartRef s').
  - intros a s' Ha Hok. destruct a; try done; simpl.
    + unfold ensureAudio. destruct (armed s'); [done|]. by apply store_ok_ext.
    + apply allNotesOff_store_ok.
    + by apply stopTimer_store_ok.
Qed.

Lemma store_ok_initial : store_ok initial.
Proof.
  unfold store_ok, initial. simpl. repeat split; done.
Qed.

Lemma voices_accounted_for_witness :
  let acts := [NoteOn "a"; NoteOn "s"; NoteOff "a"; StopTimer 0; SetSustain true;
               NoteOff "s"; AllNotesOff] in
  allowed_run timer_pending acts initial /\
  store_ok (run acts initial) /\
  releasing <$> voices (run acts initial) = [true; true].
Proof.
  intros acts.
  assert (Hallowed : allowed_run timer_pending acts initial).
  { simpl. repeat split. by eexists. }
  split; [exact Hallowed|]. split; [|reflexivity].
  exact (voices_accounted_for acts initial store_ok_initial Hallowed).
Defined.

(** ** Ended voices *)

Lemma release_ended v : ended v = true -> release v = v.
Proof. unfold release. by intros ->. Qed.

Lemma stop_ended v : ended v = true -> stop v = v.
Proof. unfold stop. by intros ->. Qed.

(** X7. An ended voice is final: whatever is done afterwards ([release],
    [stop], all notes off, new notes), the voice stays in the store exactly
    as it was. *)
Theorem ended_voice_is_final acts s voice v :
  voices s !! voice = Some v -> ended v = true ->
  voices (run acts s) !! voice = Some v.
Proof.
  intros Hv He.
  apply (inv_run (fun s' => voices s' !! voice = Some v) (fun _ _ => True));
    try done.
  - intros k s' Hs'. unfold startNote.
    destruct (activeVoices s' !! toUpperCase k); [done|].
    destruct (keyToMidi _ _); [|done]. simpl. rewrite voices_ensureAudio.
    by apply lookup_app_l_Some.
  - intros k s' Hs'. unfold stopNote.
    destruct (activeVoices s' !! toUpperCase k) as [i|]; [|done].
    destruct (sustain s'); [done|]. simpl.
    destruct (decide (i = voice)) as [->|Hne].
    + rewrite list_lookup_alter_eq, Hs'. simpl. by rewrite (release_ended _ He).
    + by rewrite list_lookup_alter_ne.
  - intros k ty n0 n1 s' _ _ Hs'. by rewrite (proj1 (voices_pushRecord _ _ _ _ _)).
  - intros a s' Ha _ Hs'. destruct a; try done; simpl.
    + by rewrite voices_ensureAudio.
    + destruct (release_active_voices (voices s') (activeVoices s')) as [_ Hall].
      destruct (Hall voice v Hs') as ([H|H] & _); [done|].
      by rewrite H, (release_ended _ He).
    + destruct (decide (voice0 = voice)) as [->|Hne].
      * rewrite list_lookup_alter_eq, Hs'. simpl. by rewrite (stop_ended _ He).
      * by rewrite list_lookup_alter_ne.
  - by apply allowed_run_always.
Qed.

Lemma ended_voice_is_final_witness :
  let s := run [NoteOn "a"; NoteOff "a"; StopTimer 0] initial in
  exists v, voices s !! 0%nat = Some v /\ ended v = true /\
    voices (run [NoteOn "a"; StopTimer 0; AllNotesOff; NoteOff "a"] s) !! 0%nat = Some v.
Proof.
  intros s. eexists. split; [reflexivity|]. split; [reflexivity|].
  apply (ended_voice_is_final _ s 0%nat); reflexivity.
Defined.

(** ** Notes of different keys *)

(** X8. With sustain off, a note-on followed by a note-off of a silent,
    mapped key gives back the active set as it was; the key is not
    highlighted; the one voice the two calls created is in the store,
    released; the older voices are as they were. *)
Theorem note_on_off_round_trip k s midi :
  sustain s = false ->
  activeVoices s !! toUpperCase k = None ->
  keyToMidi (octave s) k = Some midi ->
  activeVoices (stopNote k (startNote k s)) = activeVoices s /\
  downSet (stopNote k (startNote k s)) = downSet s ∖ {[toUpperCase k]} /\
  voices (stopNote k (startNote k s))
    = voices s ++ [release (newVoice (midiToFreq midi) (waveform s) (volume s))].
Proof.
  intros Hsus Hact Hmidi.
  destruct (startNote_fresh _ _ _ Hact Hmidi) as (Hv & Hav & Hds).
  unfold stopNote. rewrite Hav, lookup_insert_eq.
  rewrite (proj1 (proj2 (startNote_frame k s))), Hsus. simpl.
  rewrite Hav, Hv, Hds. split; [by apply delete_insert_id|].
  split.
  { apply set_eq. intros x. rewrite !elem_of_difference, elem_of_union. tauto. }
  rewrite <- (Nat.add_0_r (length (voices s))). by rewrite alter_app_r.
Qed.

Lemma note_on_off_round_trip_witness :
  activeVoices (stopNote "a" (startNote "a" initial)) = ∅ /\
  releasing <$> voices (stopNote "a" (startNote "a" initial)) = [true].
Proof.
  destruct (note_on_off_round_trip "a" initial 60 eq_refl eq_refl eq_refl)
    as (Hav & _ & Hv).
  split; [exact Hav|]. rewrite Hv. reflexivity.
Defined.

(** X9. Playing or releasing one key does not disturb another: for an
    ASCII key [k] (where [toUpperCase] is the code's) and a key [k'] other
    than the upper-cased [k], [startNote] and [stopNote] on [k] leave the
    entry of [k'] in the active set as it is, and, the voices being
    accounted for, leave its voice untouched. *)
Theorem other_keys_undisturbed k k' s :
  ascii_key k = true ->
  toUpperCase k <> k' ->
  activeVoices (startNote k s) !! k' = activeVoices s !! k' /\
  activeVoices (stopNote k s) !! k' = activeVoices s !! k' /\
  (store_ok s ->
   forall voice v, activeVoices s !! k' = Some voice -> voices s !! voice = Some v ->
     voices (startNote k s) !! voice = Some v /\
     voices (stopNote k s) !! voice = Some v).
Proof.
  intros _ Hne. split; [|split].
  - unfold startNote. destruct (activeVoices s !! toUpperCase k); [done|].
    destruct (keyToMidi _ _); [|done]. simpl.
    rewrite lookup_insert_ne by done. unfold ensureAudio. by destruct (armed s).
  - unfold stopNote. destruct (activeVoices s !! toUpperCase k); [|done].
    destruct (sustain s); [done|]. simpl. by rewrite lookup_delete_ne.
  - intros (_ & Hinj & _) voice v Hk' Hv. split.
    + unfold startNote. destruct (activeVoices s !! toUpperCase k); [done|].
      destruct (keyToMidi _ _); [|done]. simpl. rewrite voices_ensureAudio.
      by apply lookup_app_l_Some.
    + unfold stopNote.
      destruct (activeVoices s !! toUpperCase k) as [i|] eqn:Hk; [|done].
      destruct (sustain s); [done|]. simpl.
      rewrite list_lookup_alter_ne; [done|].
      intros ->. apply Hne. by eapply Hinj.
Qed.

Lemma other_keys_undisturbed_witness :
  let s := run [NoteOn "a"; NoteOn "s"] initial in
  ascii_key "a" = true /\
  activeVoices (stopNote "a" s) !! "S"%string = Some 1%nat /\
  releasing <$> voices (stopNote "a" s) = [true; false].
Proof.
  intros s.
  destruct (other_keys_undisturbed "a" "S" s eq_refl ltac:(discriminate)) as (_ & Hav & _).
  split; [reflexivity|]. split; [rewrite Hav|]; reflexivity.
Defined.

(** ** What the recorder captures *)

Lemma later_event_data evs evs' :
  Forall2 later_event evs evs' -> event_data <$> evs' = event_data <$> evs.
Proof.
  induction 1 as [|ev ev' evs evs' (Hk & Hty & Ht & _) _ IH]; [done|].
  rewrite !fmap_cons. f_equal; [|done]. unfold event_data. congruence.
Qed.

Lemma playRecording_data start frames s :
  event_data <$> recording (playRecording start frames s).1
    = event_data <$> recording s.
Proof.
  unfold playRecording. destruct (recording s) eqn:Hrec; [simpl; by rewrite Hrec|].
  rewrite <- Hrec. apply later_event_data, sched_loop_spec.
Qed.

(** X10. While the component is not recording, nothing is captured: as
    long as the Record button is not pressed, whatever keys are pressed
    and released, the recorder stays off, and the recorded events and the
    start timestamp stay as they were. *)
Theorem not_recording_captures_nothing acts s :
  isRecording s = false ->
  allowed_run not_record_button acts s ->
  isRecording (run acts s) = false /\
  event_data <$> recording (run acts s) = event_data <$> recording s /\
  recordStartRef (run acts s) = recordStartRef s.
Proof.
  intros Hoff Hrun.
  apply (inv_run (fun s' => isRecording s' = false /\
                            event_data <$> recording s' = event_data <$> recording s /\
                            recordStartRef s' = recordStartRef s) not_record_button);
    try done.
  - intros k s'. by destruct (startNote_recorder k s') as (-> & -> & ->).
  - intros k s'. by destruct (stopNote_recorder k s') as (-> & -> & ->).
  - intros evs s' Hrel (? & <- & ?). split; [done|]. split; [|done].
    simpl. by apply later_event_data.
  - intros k ty n0 n1 s' Hon _ (Hoff' & _). congruence.
  - intros a s' Ha Hok (H1 & H2 & H3). destruct a; try done; simpl;
      first [done | unfold ensureAudio; by destruct (armed s')].
Qed.

Lemma not_recording_captures_nothing_witness :
  let s := run [StartRecording; KeyDown "a" 10 10; StopRecording] initial in
  let acts := [KeyUp "a" 50 50; KeyDown "s" 90 90; NoteOn "d"; Play 100 [100]] in
  allowed_run not_record_button acts s /\
  event_data <$> recording (run acts s) = [("A"%string, down, 0)].
Proof.
  intros s acts.
  assert (Hallowed : allowed_run not_record_button acts s).
  { simpl. repeat split; discriminate. }
  split; [exact Hallowed|].
  destruct (not_recording_captures_nothing acts s eq_refl Hallowed) as (_ & -> & _).
  reflexivity.
Defined.

Lemma step_off_keyboard a s :
  off_keyboard a = true ->
  event_data <$> recording (step a s) = event_data <$> recording s /\
  recordStartRef (step a s) = recordStartRef s.
Proof.
  destruct a; try done; intros _; simpl.
  - by destruct (startNote_recorder k s) as (-> & _ & ->).
  - by destruct (stopNote_recorder k s) as (-> & _ & ->).
  - unfold ensureAudio. by destruct (armed s).
  - split; [apply playRecording_data|]. unfold playRecording.
    destruct (recording s); [done|].
    apply (inv_sched_loop (fun s' => recordStartRef s' = recordStartRef s)); try done.
    + intros k s'. by destruct (startNote_recorder k s') as (_ & _ & ->).
    + intros k s'. by destruct (stopNote_recorder k s') as (_ & _ & ->).
Qed.

(** X11. Only the keyboard is recorded: even while the component is
    recording, notes played with the pointer or by a playback, the
    controls, all notes off and the timers add no event, change none and
    leave the start timestamp as it is. *)
Theorem only_keyboard_is_recorded acts s :
  forallb off_keyboard acts = true ->
  event_data <$> recording (run acts s) = event_data <$> recording s /\
  recordStartRef (run acts s) = recordStartRef s.
Proof.
  revert s. induction acts as [|a acts IH]; intros s Hacts; [done|].
  simpl in Hacts. apply andb_true_iff in Hacts as [Ha Hrest]. simpl.
  destruct (IH (step a s) Hrest) as [-> ->]. by apply step_off_keyboard.
Qed.

Lemma only_keyboard_is_recorded_witness :
  let s := run [StartRecording; KeyDown "a" 10 10] initial in
  isRecording s = true /\
  event_data <$> recording (run [NoteOn "s"; NoteOff "s"; AllNotesOff; Play 0 [0; 16]] s)
    = [("A"%string, down, 0)].
Proof.
  intros s. split; [reflexivity|].
  destruct (only_keyboard_is_recorded
              [NoteOn "s"; NoteOff "s"; AllNotesOff; Play 0 [0; 16]] s eq_refl) as [-> _].
  reflexivity.
Defined.

(** X12. Every recorded event names a key of the table, in upper case, in
    every state a run reaches from the freshly mounted component (or from
    any state where this holds): a playback never meets a key it cannot
    play. *)
Theorem recorded_keys_are_mapped acts s :
  recorded_keys_ok s -> recorded_keys_ok (run acts s).
Proof.
  intros Hs. apply (inv_run recorded_keys_ok (fun _ _ => True)); try done.
  - intros k s'. unfold recorded_keys_ok.
    by rewrite (proj1 (startNote_recorder k s')).
  - intros k s'. unfold recorded_keys_ok.
    by rewrite (proj1 (stopNote_recorder k s')).
  - intros evs s' Hrel Hok. unfold recorded_keys_ok in *. simpl.
    eapply Forall2_Forall_r; [exact Hrel|].
    eapply Forall_impl; [exact Hok|]. simpl.
    intros ev [Hup Hin] ev' (Hk & _). by rewrite Hk.
  - intros k ty n0 n1 s' _ Hin Hok. unfold recorded_keys_ok, pushRecord in *.
    assert (Hnew : Forall (fun ev => toUpperCase (key ev) = key ev /\
                     is_Some (KEY_TO_OFFSET !! key ev))
                     [mkEvent (toUpperCase k) ty
                        (n1 - default n0 (recordStartRef s')) None]).
    { constructor; [|constructor]. simpl. split; [apply toUpperCase_idemp | done]. }
    destruct (recordStartRef s'); simpl; by apply Forall_app.
  - intros a s' Ha _ Hok. unfold recorded_keys_ok in *.
    destruct a; try done; simpl;
      first [done | constructor | unfold ensureAudio; by destruct (armed s')].
  - by apply allowed_run_always.
Qed.

Lemma recorded_keys_are_mapped_witness :
  recorded_keys_ok
    (run [StartRecording; KeyDown "a" 0 0; KeyDown "q" 5 5; KeyDown " " 6 6;
          KeyUp "a" 9 9; KeyDown ";" 12 12] initial).
Proof. apply recorded_keys_are_mapped. constructor. Defined.

(** ** Playback replays the recording in order *)

Lemma dispatch_not_due now evs s :
  Forall (fun ev => due now ev = false) evs -> dispatch now evs s = (evs, s, []).
Proof. induction 1 as [|ev rest Hev _ IH]; simpl; [done|]. by rewrite Hev, IH. Qed.

Lemma dispatch_after_played now D T s :
  Forall (fun ev => truthy (__scheduled ev) = true) D ->
  dispatch now (D ++ T) s
    = let '(T', s', calls) := dispatch now T s in (D ++ T', s', calls).
Proof.
  induction 1 as [|ev rest Hev _ IH]; simpl.
  - by destruct (dispatch now T s) as [[T' s'] calls].
  - unfold due at 1. rewrite Hev. simpl. rewrite IH.
    by destruct (dispatch now T s) as [[T' s'] calls].
Qed.

(** One pass over unplayed events in the order of their offsets: the
    events within reach form a prefix, and the calls are that prefix. *)
Lemma dispatch_sorted now T s :
  unplayed T -> StronglySorted Z.le (t <$> T) ->
  exists a b,
    T = a ++ b /\
    (dispatch now T s).1.1 = (set_scheduled true <$> a) ++ b /\
    (dispatch now T s).2 = mkDispatch now <$> a.
Proof.
  revert s. induction T as [|ev rest IH]; intros s Hun Hsorted.
  { by exists [], []. }
  apply Forall_cons in Hun as [Hev Hun].
  rewrite fmap_cons in Hsorted. apply StronglySorted_cons in Hsorted as [Hle Hsorted].
  destruct (due now ev) eqn:Hdue.
  - simpl. rewrite Hdue.
    set (s1 := match type ev with down => _ | up => _ end).
    destruct (IH s1 Hun Hsorted) as (a & b & Hab & Hevs & Hcalls).
    destruct (dispatch now rest s1) as [[rest' s2] calls]. simpl in *.
    exists (ev :: a), b. by rewrite Hab, Hevs, Hcalls.
  - exists [], (ev :: rest). rewrite dispatch_not_due; [done|].
    unfold due in Hdue. rewrite Hev in Hdue. simpl in Hdue.
    constructor; [by unfold due; rewrite Hev|].
    apply Forall_forall. intros ev' Hin. unfold due.
    assert (t ev <= t ev').
    { apply (proj1 (Forall_forall _ _) Hle). by apply list_elem_of_fmap_2. }
    apply andb_false_iff. right. lia.
Qed.

Lemma init_flag_unplayed T :
  unplayed T ->
  unplayed (init_flag <$> T) /\ t <$> (init_flag <$> T) = t <$> T /\
  event_data <$> (init_flag <$> T) = event_data <$> T.
Proof.
  unfold unplayed.
  induction 1 as [|ev rest Hev _ (IH1 & IH2 & IH3)]; [by repeat split; constructor|].
  rewrite !fmap_cons.
  assert (Hinit : init_flag ev = set_scheduled false ev).
  { unfold init_flag. by rewrite Hev. }
  rewrite Hinit. split; [by constructor|]. split; by f_equal.
Qed.

Lemma init_flag_played D :
  Forall (fun ev => truthy (__scheduled ev) = true) D -> init_flag <$> D = D.
Proof.
  induction 1 as [|ev rest Hev _ IH]; [done|].
  rewrite fmap_cons, IH. unfold init_flag. by rewrite Hev.
Qed.

(** The recording of [s] is a played part [D] followed by an unplayed part
    [T] in the order of the offsets. *)
Lemma sched_in_order now s D T :
  recording s = D ++ T ->
  Forall (fun ev => truthy (__scheduled ev) = true) D ->
  unplayed T -> StronglySorted Z.le (t <$> T) ->
  exists D' T',
    recording (sched now s).1 = D' ++ T' /\
    Forall (fun ev => truthy (__scheduled ev) = true) D' /\
    unplayed T' /\ StronglySorted Z.le (t <$> T') /\
    event_data <$> T = played (sched now s).2 ++ (event_data <$> T').
Proof.
  intros Hrec HD HT Hsorted. unfold sched.
  rewrite Hrec, fmap_app, (init_flag_played _ HD).
  destruct (init_flag_unplayed T HT) as (HT1 & Ht1 & Hdata1).
  rewrite dispatch_after_played by done.
  rewrite <- Ht1 in Hsorted.
  destruct (dispatch_sorted now (init_flag <$> T) s HT1 Hsorted)
    as (a & b & Hab & Hevs & Hcalls).
  destruct (dispatch now (init_flag <$> T) s) as [[T' s'] calls].
  simpl in *. subst T' calls.
  exists (D ++ (set_scheduled true <$> a)), b.
  rewrite Hab in HT1, Hsorted. apply Forall_app in HT1 as [_ Hb].
  rewrite fmap_app in Hsorted. apply StronglySorted_app_1_r in Hsorted.
  split; [by rewrite app_assoc|]. split; [|split; [done|split; [done|]]].
  - apply Forall_app. split; [done|]. apply Forall_fmap, Forall_forall. done.
  - rewrite <- Hdata1, Hab, fmap_app. f_equal.
    unfold played. by rewrite <- list_fmap_compose.
Qed.

Lemma sched_loop_in_order start frames s D T :
  recording s = D ++ T ->
  Forall (fun ev => truthy (__scheduled ev) = true) D ->
  unplayed T -> StronglySorted Z.le (t <$> T) ->
  exists D' T',
    recording (sched_loop start frames s).1 = D' ++ T' /\
    Forall (fun ev => truthy (__scheduled ev) = true) D' /\
    unplayed T' /\
    event_data <$> T = played (sched_loop start frames s).2 ++ (event_data <$> T').
Proof.
  revert s D T. induction frames as [|r rest IH]; intros s D T Hrec HD HT Hsorted.
  { exists D, T. by repeat split. }
  simpl. destruct (sched_in_order (r - start) s D T Hrec HD HT Hsorted)
    as (D1 & T1 & Hrec1 & HD1 & HT1 & Hsorted1 & Hdata1).
  destruct (sched (r - start) s) as [s1 calls]. simpl in *.
  destruct (pending s1).
  - destruct (IH s1 D1 T1 Hrec1 HD1 HT1 Hsorted1) as (D2 & T2 & Hrec2 & HD2 & HT2 & Hdata2).
    destruct (sched_loop start rest s1) as [s2 calls2]. simpl in *.
    exists D2, T2. repeat split; try done.
    unfold played in *. by rewrite fmap_app, <- app_assoc, <- Hdata2.
  - by exists D1, T1.
Qed.

(** When a playback of an unplayed recording in offset order leaves
    nothing pending, its calls are the recorded events in order. *)
Lemma playRecording_played_all start frames s :
  unplayed (recording s) ->
  Sorted Z.le (t <$> recording s) ->
  pending (playRecording start frames s).1 = false ->
  played (playRecording start frames s).2 = event_data <$> recording s.
Proof.
  intros Hun Hsorted. unfold playRecording.
  destruct (recording s) as [|ev0 evs0] eqn:Hrec; [done|]. rewrite <- Hrec in *.
  apply Sorted_StronglySorted in Hsorted; [|intros ???; lia].
  destruct (sched_loop_in_order start frames s [] (recording s) eq_refl
              ltac:(constructor) Hun Hsorted) as (D' & T' & Hrec' & HD' & HT' & Hdata).
  intros Hdone%pending_false. rewrite Hrec' in Hdone.
  apply Forall_app in Hdone as [_ Hall].
  destruct T' as [|ev' T'].
  - by rewrite Hdata, app_nil_r.
  - apply Forall_cons in Hall as [Hyes _]. apply Forall_cons in HT' as [Hno _].
    congruence.
Qed.

(** X13. A recording whose offsets are in non-decreasing order and whose
    events have not been played is replayed whole and in order: when one
    of the clock readings of the playback is late enough for the last
    offset, the calls made to the voice manager are the recorded events,
    each once, in the recorded order, and nothing is left pending. *)
Theorem playback_in_recorded_order start frames s r :
  unplayed (recording s) ->
  Sorted Z.le (t <$> recording s) ->
  r ∈ frames ->
  Forall (fun ev => t ev <= r - start + 5) (recording s) ->
  played (playRecording start frames s).2 = event_data <$> recording s /\
  pending (playRecording start frames s).1 = false.
Proof.
  intros Hun Hsorted Hr Hlate.
  pose proof (playRecording_completes start frames s r Hr Hlate) as Hdone.
  split; [|exact Hdone]. by apply playRecording_played_all.
Qed.

Lemma playback_in_recorded_order_witness :
  let s := run [StartRecording; KeyDown "a" 1000 1000; KeyUp "a" 1200 1200;
                KeyDown "s" 1250 1250; KeyUp "s" 1500 1500; StopRecording] initial in
  played (playRecording 5000 [5000; 5100; 5200; 5300; 5400; 5500] s).2
    = [("A", down, 0); ("A", up, 200); ("S", down, 250); ("S", up, 500)]%string.
Proof.
  intros s.
  assert (Hs : Sorted Z.le (t <$> recording s)).
  { vm_compute. repeat constructor; discriminate. }
  destruct (playback_in_recorded_order 5000 [5000; 5100; 5200; 5300; 5400; 5500] s 5500)
    as [Hplayed _].
  - repeat constructor.
  - exact Hs.
  - repeat (first [apply list_elem_of_here | apply list_elem_of_further]).
  - repeat constructor; vm_compute; discriminate.
  - rewrite Hplayed. reflexivity.
Defined.

(** X14. Record, then play: the events captured after [startRecording]
    with a monotonic clock come back from a playback that runs long enough
    as calls with the same keys (upper-cased), the same transitions and the
    same offsets, in the order of capture. *)
Theorem record_then_play c0 rest s start frames r :
  Sorted Z.le (readings (c0 :: rest)) ->
  r ∈ frames ->
  Forall (fun c => cnow1 c - cnow0 c0 <= r - start + 5) (c0 :: rest) ->
  played (playRecording start frames (captureAll (c0 :: rest) (startRecording s))).2
    = (fun c => (toUpperCase (ckey c), ctype c, cnow1 c - cnow0 c0)) <$> (c0 :: rest).
Proof.
  intros Hclock Hr Hlate.
  destruct (captureAll_fresh c0 rest s) as [_ Hrec].
  rewrite playRecording_played_all; rewrite ?Hrec.
  - by rewrite <- list_fmap_compose.
  - apply Forall_fmap, Forall_forall. done.
  - rewrite <- list_fmap_compose.
    change (t ∘ event_of (cnow0 c0)) with ((fun x => x - cnow0 c0) ∘ cnow1).
    rewrite list_fmap_compose. apply Sorted_shift.
    unfold readings in Hclock. by apply Sorted_inv in Hclock as [? _].
  - apply (playRecording_completes _ _ _ r Hr). rewrite Hrec.
    apply Forall_fmap. eapply Forall_impl; [exact Hlate|]. done.
Qed.

Lemma record_then_play_witness :
  let cs := [mkCapture "a" down 1000 1000; mkCapture "a" up 1200 1200;
             mkCapture "s" down 1250 1251; mkCapture "s" up 1500 1500] in
  played (playRecording 0 [0; 17; 300; 600] (captureAll cs (startRecording initial))).2
    = [("A", down, 0); ("A", up, 200); ("S", down, 251); ("S", up, 500)]%string.
Proof.
  intros cs. unfold cs.
  rewrite (record_then_play _ _ initial 0 [0; 17; 300; 600] 600).
  - reflexivity.
  - simpl. repeat constructor; discriminate.
  - repeat (first [apply list_elem_of_here | apply list_elem_of_further]).
  - repeat constructor; simpl; lia.
Defined.

(** X15. A playback changes neither the configuration nor the recorder:
    octave, sustain, volume and waveform, the recording switch and the
    start timestamp are as before, and the recorded events keep their
    keys, transitions and offsets (only their flags are written). *)
Theorem playback_frame start frames s :
  let s' := (playRecording start frames s).1 in
  octave s' = octave s /\ sustain s' = sustain s /\
  volume s' = volume s /\ waveform s' = waveform s /\
  isRecording s' = isRecording s /\ recordStartRef s' = recordStartRef s /\
  event_data <$> recording s' = event_data <$> recording s.
Proof.
  simpl. rewrite playRecording_data.
  assert (H : let s' := (playRecording start frames s).1 in
    octave s' = octave s /\ sustain s' = sustain s /\
    volume s' = volume s /\ waveform s' = waveform s /\
    isRecording s' = isRecording s /\ recordStartRef s' = recordStartRef s).
  { apply (inv_playRecording (fun s' =>
      octave s' = octave s /\ sustain s' = sustain s /\
      volume s' = volume s /\ waveform s' = waveform s /\
      isRecording s' = isRecording s /\ recordStartRef s' = recordStartRef s));
      try done.
    - intros k s1 (<- & <- & <- & <- & <- & <-).
      destruct (startNote_frame k s1) as (-> & -> & -> & ->).
      by destruct (startNote_recorder k s1) as (_ & -> & ->).
    - intros k s1 (<- & <- & <- & <- & <- & <-).
      destruct (stopNote_frame k s1) as (-> & -> & -> & -> & _).
      by destruct (stopNote_recorder k s1) as (_ & -> & ->). }
  simpl in H. tauto.
Qed.

(** X16. The octave buttons saturate and undo each other. With the
    octave in the range 1..8: at octave 8 the up step changes nothing and
    at octave 1 the down step changes nothing; below 8 a step up followed
    by a step down gives back the state, and above 1 so does a step down
    followed by a step up. *)
Theorem octave_steps s :
  octave_in_range s ->
  (octave s = 8 -> octaveUp s = s) /\
  (octave s = 1 -> octaveDown s = s) /\
  (octave s < 8 -> octaveDown (octaveUp s) = s) /\
  (1 < octave s -> octaveUp (octaveDown s) = s).
Proof.
  destruct s. unfold octave_in_range, octaveUp, octaveDown, setOctave, with_octave.
  simpl. intros Hrange. repeat split; intros H; f_equal; lia.
Qed.

Lemma octave_steps_witness :
  octave_in_range initial /\
  octaveDown (octaveUp initial) = initial /\
  octaveUp (run [OctaveUp; OctaveUp; OctaveUp; OctaveUp] initial)
    = run [OctaveUp; OctaveUp; OctaveUp; OctaveUp] initial.
Proof.
  assert (Hinit : octave_in_range initial) by (unfold octave_in_range; simpl; lia).
  assert (Htop : octave_in_range (run [OctaveUp; OctaveUp; OctaveUp; OctaveUp] initial))
    by (unfold octave_in_range; simpl; lia).
  split; [exact Hinit|]. split.
  - apply (octave_steps initial Hinit). simpl. lia.
  - apply (octave_steps _ Htop). reflexivity.
Defined.

(** X17. All notes off leaves no voice sounding: in a state where the
    voices are accounted for, after [allNotesOff] every voice of the store
    has been released, the sustained ones included. *)
Theorem allNotesOff_releases_every_voice s voice v :
  store_ok s ->
  voices (allNotesOff s) !! voice = Some v -> releasing v = true.
Proof.
  intros Hok%allNotesOff_store_ok Hv.
  destruct Hok as (_ & _ & H3 & _).
  destruct (H3 _ _ Hv) as [[k Hk] | Hrel]; [|done].
  simpl in Hk. by rewrite lookup_empty in Hk.
Qed.

Lemma allNotesOff_releases_every_voice_witness :
  let s := run [SetSustain true; NoteOn "a"; NoteOff "a"; NoteOn "s"; SetSustain false] initial in
  store_ok s /\
  releasing <$> voices s = [false; false] /\
  exists v, voices (allNotesOff s) !! 1%nat = Some v /\ releasing v = true.
Proof.
  intros s.
  assert (Hok : store_ok s).
  { apply (inv_run store_ok timer_pending);
      [apply startNote_store_ok | apply stopNote_store_ok | done | | done | done | done
      | | by repeat split | apply store_ok_initial].
    - intros k ty n0 n1 s' _ _. apply store_ok_ext; try done;
        unfold pushRecord; by destruct (recordStartRef s').
    - intros a s' Ha Hallowed. destruct a; try done; simpl.
      + unfold ensureAudio. destruct (armed s'); [done|]. by apply store_ok_ext.
      + apply allNotesOff_store_ok.
      + by apply stopTimer_store_ok. }
  split; [exact Hok|]. split; [reflexivity|].
  eexists. split; [reflexivity|].
  eapply (allNotesOff_releases_every_voice s 1%nat _ Hok). reflexivity.
Defined.
